(** * Trivia Challenge (src/App.js): the quiz session, embedded and verified

    The React component [App] keeps eight pieces of state and changes them
    through three event handlers and one asynchronous function.  This file
    embeds them as functions on a record of the eight fields:

    - the helpers [shuffleArray] and the answer formatting of
      [fetchQuestions] (lines 25-27 and 50-56);
    - [fetchQuestions], cut at its [await] into the part that runs at once
      and the part that runs when the request settles (lines 32-65);
    - [handleStartQuiz], [handleAnswerSelect], [handleNextQuestion]
      (lines 69-93);
    - [renderContent] (lines 116-171), as far as it decides which buttons
      exist, since a handler only runs when its button is on screen;
    - [getAnswerButtonClass] (lines 97-112) and the label of the last
      button (line 162).

    JavaScript numbers are integers here ([Z]): the program only stores 0,
    adds 1 and compares.  [document] and [Math.random] belong to the host and
    are variables of the section. *)

From stdpp Require Import base option list strings gmap.
From Stdlib Require Import ZArith Lia.

Local Open Scope Z_scope.

(** ** Data *)

(** An entry of [data.results], as the question bank sends it. *)
Module Raw.
Record t : Type := mk {
  question : string;
  correct_answer : string;
  incorrect_answers : list string;
  (* category, type, difficulty: copied by the spread, never read *)
  others : list (string * string)
}.
End Raw.

(** An entry of [formattedQuestions] (lines 50-56). *)
Record Question : Type := mkQuestion {
  question : string;
  correct_answer : string;
  incorrect_answers : list string;
  answers : list string;
  others : list (string * string)
}.

(** [gameState] holds one of three string literals (line 6). *)
Inductive GameState : Type := start | active | finished.

#[global] Instance GameState_eq_dec : EqDecision GameState.
Proof. solve_decision. Defined.

(** The [React.useState] cells of lines 6-13. *)
Record State : Type := mkState {
  gameState : GameState;
  questions : list Question;
  currentQuestionIndex : Z;
  score : Z;
  selectedAnswer : option string;
  isAnswered : bool;
  loading : bool;
  error : option string
}.

(** Line 6-13, the initial values. *)
Definition initialState : State :=
  {| gameState := start; questions := []; currentQuestionIndex := 0;
     score := 0; selectedAnswer := None; isAnswered := false;
     loading := false; error := None |}.

(** The setters returned by [useState]; each replaces one cell. *)
Definition setGameState (v : GameState) (s : State) : State :=
  {| gameState := v; questions := questions s;
     currentQuestionIndex := currentQuestionIndex s; score := score s;
     selectedAnswer := selectedAnswer s; isAnswered := isAnswered s;
     loading := loading s; error := error s |}.

Definition setQuestions (v : list Question) (s : State) : State :=
  {| gameState := gameState s; questions := v;
     currentQuestionIndex := currentQuestionIndex s; score := score s;
     selectedAnswer := selectedAnswer s; isAnswered := isAnswered s;
     loading := loading s; error := error s |}.

(** [setCurrentQuestionIndex] and [setScore] are also called with an updater
    function ([prevIndex => prevIndex + 1]), so both take a function. *)
Definition setCurrentQuestionIndex (f : Z → Z) (s : State) : State :=
  {| gameState := gameState s; questions := questions s;
     currentQuestionIndex := f (currentQuestionIndex s); score := score s;
     selectedAnswer := selectedAnswer s; isAnswered := isAnswered s;
     loading := loading s; error := error s |}.

Definition setScore (f : Z → Z) (s : State) : State :=
  {| gameState := gameState s; questions := questions s;
     currentQuestionIndex := currentQuestionIndex s; score := f (score s);
     selectedAnswer := selectedAnswer s; isAnswered := isAnswered s;
     loading := loading s; error := error s |}.

Definition setSelectedAnswer (v : option string) (s : State) : State :=
  {| gameState := gameState s; questions := questions s;
     currentQuestionIndex := currentQuestionIndex s; score := score s;
     selectedAnswer := v; isAnswered := isAnswered s;
     loading := loading s; error := error s |}.

Definition setIsAnswered (v : bool) (s : State) : State :=
  {| gameState := gameState s; questions := questions s;
     currentQuestionIndex := currentQuestionIndex s; score := score s;
     selectedAnswer := selectedAnswer s; isAnswered := v;
     loading := loading s; error := error s |}.

Definition setLoading (v : bool) (s : State) : State :=
  {| gameState := gameState s; questions := questions s;
     currentQuestionIndex := currentQuestionIndex s; score := score s;
     selectedAnswer := selectedAnswer s; isAnswered := isAnswered s;
     loading := v; error := error s |}.

Definition setError (v : option string) (s : State) : State :=
  {| gameState := gameState s; questions := questions s;
     currentQuestionIndex := currentQuestionIndex s; score := score s;
     selectedAnswer := selectedAnswer s; isAnswered := isAnswered s;
     loading := loading s; error := v |}.

(** [a[i]] on a JavaScript array: [undefined] outside [0 .. length-1]. *)
Definition js_index {A} (a : list A) (i : Z) : option A :=
  if i <? 0 then None else a !! Z.to_nat i.

(** [a.length], a JavaScript number. *)
Definition js_length {A} (a : list A) : Z := Z.of_nat (length a).

(** The phase of the session, read off the three cells that [renderContent]
    tests in this order: [loading] (line 117), [gameState] (lines 126-134),
    and [error], which tells a first visit of the start screen from a return
    to it after a failure (lines 60-61 and 200). *)
Inductive Phase : Type := NotStarted | Loading | Active | Finished | Failed.

Definition phase (s : State) : Phase :=
  if loading s then Loading
  else match gameState s with
       | start => match error s with None => NotStarted | Some _ => Failed end
       | active => Active
       | finished => Finished
       end.

(** ** The random source

    [Math.random()] is a host function with hidden state.  Its successive
    results are a sequence [random 0, random 1, ...]; a computation that
    draws from it is a function of the number of draws made so far.  A draw
    [k] stands for the double [k / 2^53]. *)
Definition Rand (A : Type) : Type := nat → A * nat.

Definition ret {A} (a : A) : Rand A := fun n => (a, n).

Definition bind {A B} (m : Rand A) (k : A → Rand B) : Rand B :=
  fun n => let (a, n') := m n in k a n'.

Notation "'draw' x '<~' m 'in' k" := (bind m (fun x => k))
  (at level 10, x name, m at level 100, k at level 200).

Fixpoint mapR {A B} (f : A → Rand B) (l : list A) : Rand (list B) :=
  match l with
  | [] => ret []
  | x :: l' => draw y <~ f x in draw ys <~ mapR f l' in ret (y :: ys)
  end.

Section Host.

(** [Math.random], as the numerators of its results over [2^53]. *)
Variable random : nat → Z.

(** [decodeHtml] (lines 18-22) writes its argument into a detached
    [textarea] and reads the value back: the browser's entity decoder. *)
Variable decodeHtml : string → string.

Definition Math_random : Rand Z := fun n => (random n, S n).

(** The comparator of line 26, [() => Math.random() - 0.5], scaled by
    [2^53]; it ignores the two elements it is asked to compare. *)
Definition comparefn {A} (_ _ : A) : Rand Z :=
  draw r <~ Math_random in ret (r - 2 ^ 52).

(** [Array.prototype.sort] with a comparator.  ECMAScript leaves the
    algorithm to the engine.  It is taken here to be straight insertion
    sort, which V8 long used for arrays of up to ten elements (an answer
    pool has four):
<<
    for (i = from + 1; i < to; i++) {
      element = a[i];
      for (j = i - 1; j >= from; j--) {
        tmp = a[j];
        order = comparefn(tmp, element);
        if (order > 0) a[j + 1] = tmp; else break;
      }
      a[j + 1] = element;
    }
>>
    [insert element rprefix] is the inner loop; [rprefix] is
    [a[from .. i-1]] read from the right, and so is the result for
    [a[from .. i]].  Each call of the comparator makes one draw. *)
Fixpoint insert {A} (element : A) (rprefix : list A) : Rand (list A) :=
  match rprefix with
  | [] => ret [element]
  | tmp :: rest =>
      draw order <~ comparefn tmp element in
      if 0 <? order
      then draw shifted <~ insert element rest in ret (tmp :: shifted)
      else ret (element :: tmp :: rest)
  end.

Fixpoint insertionLoop {A} (rsorted todo : list A) : Rand (list A) :=
  match todo with
  | [] => ret (reverse rsorted)
  | element :: todo' =>
      draw rsorted' <~ insert element rsorted in insertionLoop rsorted' todo'
  end.

Definition sort {A} (a : list A) : Rand (list A) := insertionLoop [] a.

(** Lines 25-27 on values: [[...array].sort(() => Math.random() - 0.5)]. *)
Definition shuffleArray {A} (array : list A) : Rand (list A) := sort array.

(** *** The same function on references

    A JavaScript array is a reference, and [sort] works in place and returns
    its receiver.  To see what [shuffleArray] does to the array it is given,
    arrays live in a store and the function takes and returns addresses:
    [[...array]] allocates a copy, [.sort(...)] overwrites that copy. *)
Definition spread {A} (array : nat) (σ : gmap nat (list A))
  : option (nat * gmap nat (list A)) :=
  match σ !! array with
  | None => None
  | Some elements => let copy := fresh (dom σ) in Some (copy, <[copy := elements]> σ)
  end.

Definition sort_in_place {A} (a : nat) (σ : gmap nat (list A))
  : Rand (option (nat * gmap nat (list A))) :=
  match σ !! a with
  | None => ret None
  | Some elements => draw sorted <~ sort elements in ret (Some (a, <[a := sorted]> σ))
  end.

Definition shuffleArray_store {A} (array : nat) (σ : gmap nat (list A))
  : Rand (option (nat * gmap nat (list A))) :=
  match spread array σ with
  | None => ret None
  | Some (copy, σ1) => sort_in_place copy σ1
  end.

(** ** Formatting (lines 50-56)

    The body of [data.results.map(...)].  The object literal evaluates
    [questionItem.incorrect_answers.map(decodeHtml)] twice; only the
    [answers] entry draws random numbers. *)
Definition formatQuestion (questionItem : Raw.t) : Rand Question :=
  draw shuffled <~
    shuffleArray (map decodeHtml (Raw.incorrect_answers questionItem)
                    ++ [decodeHtml (Raw.correct_answer questionItem)]) in
  ret {| question := decodeHtml (Raw.question questionItem);
         correct_answer := decodeHtml (Raw.correct_answer questionItem);
         incorrect_answers := map decodeHtml (Raw.incorrect_answers questionItem);
         answers := shuffled;
         others := Raw.others questionItem |}.

(** ** The request (lines 32-65) *)

(** What [await response.json()] and the reads of [data] can give.

    - [BodyThrows]: [response.json()] rejects (the body is not JSON), or
      [data] is [null] and reading [data.response_code] raises.
    - [BodyData]: [data.response_code] can be read and every entry of
      [data.results] can be formatted.  An entry field that is not a string
      is taken as the string [innerHTML] makes of it.
    - [BodyMalformed]: [data.response_code] can be read, but
      [data.results] cannot be walked to its end: it is not an array, or
      one of its entries is [null] or has no [incorrect_answers] array.
      [readable] holds the entries before the first that cannot be read
      (none when [results] is not an array); reading the next raises a
      [TypeError] with [message], before any random number is drawn for
      it.

    [response_code] stands for whatever [data.response_code] holds; every
    value other than the number 0 passes the test of line 45 alike.  Of an
    exception only [err.message] is kept. *)
Inductive Body : Type :=
  | BodyThrows (message : string)
  | BodyData (response_code : Z) (results : list Raw.t)
  | BodyMalformed (response_code : Z) (readable : list Raw.t)
      (message : string).


(** What [await fetch(url)] can give: a rejection (no network), or a
    response with a status line. *)
Inductive FetchResult : Type :=
  | Rejected (message : string)
  | Response (status : Z) (body : Body).

(** [response.ok]: the status is in the range 200-299. *)
Definition ok (status : Z) : bool := (200 <=? status) && (status <=? 299).

(** The two messages the program itself throws (lines 42 and 46). *)
Definition transportMessage : string :=
  "Something went wrong. Could not fetch questions.".
Definition bankMessage : string :=
  "There was an issue with the trivia API. Please try again later.".

(** The [try] block from line 40 on: [inl] is the message of the exception
    that reaches [catch], [inr] the value of [formattedQuestions]. *)
Definition tryBlock (r : FetchResult) : Rand (string + list Question) :=
  match r with
  | Rejected message => ret (inl message)
  | Response status body =>
      if negb (ok status) then ret (inl transportMessage)
      else match body with
           | BodyThrows message => ret (inl message)
           | BodyData response_code results =>
               if bool_decide (response_code ≠ 0) then ret (inl bankMessage)
               else draw formattedQuestions <~ mapR formatQuestion results in
                    ret (inr formattedQuestions)
           | BodyMalformed response_code readable message =>
               if bool_decide (response_code ≠ 0) then ret (inl bankMessage)
               else draw formattedSoFar <~ mapR formatQuestion readable in
                    ret (inl message)
           end
  end.

(** Lines 33-37: what [fetchQuestions] does before it first suspends. *)
Definition fetchQuestions_begin (s : State) : State :=
  setIsAnswered false
    (setSelectedAnswer None
       (setGameState active
          (setError None
             (setLoading true s)))).

(** Lines 39-64: what it does when the request has settled. *)
Definition fetchQuestions_settle (r : FetchResult) (s : State) : Rand State :=
  draw outcome <~ tryBlock r in
  ret (setLoading false
         match outcome with
         | inr formattedQuestions => setQuestions formattedQuestions s
         | inl message => setGameState start (setError (Some message) s)
         end).

(** ** Event handlers (lines 69-93) *)

Definition handleStartQuiz (s : State) : State :=
  fetchQuestions_begin
    (setCurrentQuestionIndex (λ _, 0)
       (setScore (λ _, 0) s)).

(** How a handler ends: it returns, or reading a property of [undefined]
    raises a [TypeError].  Either way the updates it has already queued are
    applied; the state carried is the one after them. *)
Inductive Completion : Type :=
  | Returned (s : State)
  | TypeError (s : State).

Definition stateAfter (c : Completion) : State :=
  match c with Returned s | TypeError s => s end.

Definition handleAnswerSelect (answer : string) (s : State) : Completion :=
  if isAnswered s then Returned s
  else
    let s' := setIsAnswered true (setSelectedAnswer (Some answer) s) in
    match js_index (questions s) (currentQuestionIndex s) with
    | None => TypeError s'
    | Some currentQuestion =>
        if bool_decide (answer = correct_answer currentQuestion)
        then Returned (setScore (λ prevScore, prevScore + 1) s')
        else Returned s'
    end.

Definition handleNextQuestion (s : State) : State :=
  if currentQuestionIndex s <? js_length (questions s) - 1
  then setIsAnswered false
         (setSelectedAnswer None
            (setCurrentQuestionIndex (λ prevIndex, prevIndex + 1) s))
  else setGameState finished s.

(** ** The running application

    The component together with what the host holds for it: the number of
    requests sent and not yet settled, and the number of random draws made. *)
Record World : Type := mkWorld {
  app : State;
  inflight : nat;
  drawn : nat
}.

Definition initialWorld : World :=
  {| app := initialState; inflight := 0%nat; drawn := 0%nat |}.

Inductive Event : Type :=
  | StartQuiz
  | AnswerSelect (answer : string)
  | NextQuestion
  | Settled (r : FetchResult).

(** One transition.  [StartQuiz] sends one request (line 40); [Settled]
    needs a request in flight, takes it away and sends none. *)
Definition step (e : Event) (w : World) : option World :=
  match e with
  | StartQuiz =>
      Some {| app := handleStartQuiz (app w);
              inflight := S (inflight w); drawn := drawn w |}
  | AnswerSelect answer =>
      Some {| app := stateAfter (handleAnswerSelect answer (app w));
              inflight := inflight w; drawn := drawn w |}
  | NextQuestion =>
      Some {| app := handleNextQuestion (app w);
              inflight := inflight w; drawn := drawn w |}
  | Settled r =>
      match inflight w with
      | O => None
      | S pending =>
          let (s', n') := fetchQuestions_settle r (app w) (drawn w) in
          Some {| app := s'; inflight := pending; drawn := n' |}
      end
  end.

Fixpoint run (es : list Event) (w : World) : option World :=
  match es with
  | [] => Some w
  | e :: es' => match step e w with None => None | Some w' => run es' w' end
  end.

Inductive reachable : World → Prop :=
  | reachable_initial : reachable initialWorld
  | reachable_step e w w' : reachable w → step e w = Some w' → reachable w'.

(** ** What is on screen (lines 116-171)

    [renderContent], kept to what decides which handler can be called. *)
Inductive View : Type :=
  | Spinner
  | StartScreen (error : option string)
  | ResultScreen (score total : Z)
  | QuestionScreen (currentQuestion : Question) (number total : Z)
      (disabled : bool) (nextButton : bool)
  | Null
  | RenderError.

Definition renderContent (s : State) : View :=
  if loading s then Spinner
  else if bool_decide (gameState s = start) then StartScreen (error s)
  else if bool_decide (gameState s = finished)
       then ResultScreen (score s) (js_length (questions s))
  else if bool_decide (gameState s = active) && (0 <? js_length (questions s))
       then match js_index (questions s) (currentQuestionIndex s) with
            | None => RenderError
            | Some currentQuestion =>
                QuestionScreen currentQuestion (currentQuestionIndex s + 1)
                  (js_length (questions s)) (isAnswered s) (isAnswered s)
            end
  else Null.

(** Which clicks a view can produce: [onStart] and [onRestart] are
    [handleStartQuiz]; each answer button calls [handleAnswerSelect] with its
    own label and is [disabled] once answered; the last button exists only
    under [isAnswered &&].  A settled request is not a click. *)
Definition offered (e : Event) (v : View) : bool :=
  match e, v with
  | StartQuiz, (StartScreen _ | ResultScreen _ _) => true
  | AnswerSelect answer, QuestionScreen currentQuestion _ _ disabled _ =>
      negb disabled && bool_decide (answer ∈ answers currentQuestion)
  | NextQuestion, QuestionScreen _ _ _ _ nextButton => nextButton
  | Settled _, _ => true
  | _, _ => false
  end.

(** A transition of the application as a user can drive it. *)
Definition dispatch (e : Event) (w : World) : option World :=
  if offered e (renderContent (app w)) then step e w else Some w.

Inductive reachableByUser : World → Prop :=
  | reachableByUser_initial : reachableByUser initialWorld
  | reachableByUser_step e w w' :
      reachableByUser w → dispatch e w = Some w' → reachableByUser w'.

(** A sequence of clicks and settled requests, each handled only if the
    screen of the moment offers it. *)
Fixpoint drive (es : list Event) (w : World) : option World :=
  match es with
  | [] => Some w
  | e :: es' =>
      match dispatch e w with None => None | Some w' => drive es' w' end
  end.

(** ** The rest of the question screen *)

(** [getAnswerButtonClass] (lines 97-112), called once for each answer
    button while the question screen is built.  Once an answer is chosen it
    reads [questions[currentQuestionIndex].correct_answer]; [None] stands
    for the [TypeError] raised when that question does not exist.
    [answer === selectedAnswer] is false while [selectedAnswer] is [null]. *)
Definition getAnswerButtonClass (answer : string) (s : State) : option string :=
  if negb (isAnswered s) then Some "bg-indigo-500 hover:bg-indigo-600"
  else
    match js_index (questions s) (currentQuestionIndex s) with
    | None => None
    | Some currentQuestion =>
        let isCorrect := bool_decide (answer = correct_answer currentQuestion) in
        let isSelected := bool_decide (Some answer = selectedAnswer s) in
        if isCorrect then Some "bg-green-500 scale-105"
        else if isSelected && negb isCorrect then Some "bg-red-500"
        else Some "bg-gray-500 opacity-70"
    end.

(** The text of the last button (line 162). *)
Definition nextButtonLabel (s : State) : string :=
  if currentQuestionIndex s <? js_length (questions s) - 1
  then "Next Question" else "Finish Quiz".

(** ** Playing a round *)

(** The clicks of a user who answers every question and moves on. *)
Definition answerAll (chosen : list string) : list Event :=
  flat_map (λ answer, [AnswerSelect answer; NextQuestion]) chosen.

(** How many of the chosen answers are the correct answer of the question
    at the same position. *)
Fixpoint correctAnswers (qs : list Question) (chosen : list string) : Z :=
  match qs, chosen with
  | q :: qs', answer :: chosen' =>
      (if bool_decide (answer = correct_answer q) then 1 else 0)
      + correctAnswers qs' chosen'
  | _, _ => 0
  end.

(** A request that settles with questions: status 200-299 and
    [response_code] 0 (lines 41-47). *)
Definition succeeds (r : FetchResult) : bool :=
  match r with
  | Response status (BodyData response_code _) =>
      ok status && bool_decide (response_code = 0)
  | _ => false
  end.

Definition settlesWithQuestions (e : Event) : bool :=
  match e with Settled r => succeeds r | _ => false end.

(** What the cells satisfy whenever the application is driven through its
    buttons: the index stays inside [questions] (or at 0 when there are
    none), an answer is only ever chosen for an existing question, nothing
    is chosen while a request is out, and the result screen comes after the
    answer to the last question. *)
Definition consistent (s : State) : Prop :=
  0 ≤ currentQuestionIndex s
  ∧ (currentQuestionIndex s < js_length (questions s)
     ∨ currentQuestionIndex s = 0)
  ∧ (isAnswered s = true → currentQuestionIndex s < js_length (questions s))
  ∧ (loading s = true →
     currentQuestionIndex s = 0 ∧ isAnswered s = false ∧ gameState s = active)
  ∧ (gameState s = finished →
     isAnswered s = true
     ∧ currentQuestionIndex s = js_length (questions s) - 1).

End Host.

(** ** A sample host

    A decoder for the three entities the bank's answers use most, a fixed
    sequence of draws, and two questions.  They serve to run the definitions
    above on concrete data. *)
Fixpoint decodeFrom (skip : nat) (html : string) : string :=
  match html with
  | EmptyString => EmptyString
  | String c rest =>
      match skip with
      | S skip' => decodeFrom skip' rest
      | O =>
          if String.prefix "&amp;" html then String (Ascii.ascii_of_nat 38) (decodeFrom 4 rest)
          else if String.prefix "&quot;" html
               then String (Ascii.ascii_of_nat 34) (decodeFrom 5 rest)
          else if String.prefix "&#039;" html then String (Ascii.ascii_of_nat 39) (decodeFrom 5 rest)
          else String c (decodeFrom 0 rest)
      end
  end.

Definition sampleDecodeHtml : string → string := decodeFrom 0.

(** Draws that alternate between the two halves of the unit interval. *)
Definition sampleRandom (i : nat) : Z :=
  if Nat.even i then 2 ^ 53 - 1 else Z.of_nat i.

Definition capital : Raw.t :=
  {| Raw.question := "What is the capital of France?";
     Raw.correct_answer := "Paris";
     Raw.incorrect_answers := ["London"; "Berlin"; "Rome"];
     Raw.others := [("difficulty", "easy")] |}.

Definition band : Raw.t :=
  {| Raw.question := "Who recorded &quot;Rock &amp; Roll&quot;?";
     Raw.correct_answer := "Led Zeppelin";
     Raw.incorrect_answers := ["Guns N&#039; Roses"; "AC&amp;DC"; "Queen"];
     Raw.others := [] |}.

(** One round of two questions: the first answered right, the second wrong. *)
Definition loaded : list Event :=
  [StartQuiz; Settled (Response 200 (BodyData 0 [capital; band]))].

Definition played : list Event :=
  loaded ++ [AnswerSelect "Paris"; NextQuestion; AnswerSelect "Queen"].

Definition worldAfter (es : list Event) : World :=
  default initialWorld (run sampleRandom sampleDecodeHtml es initialWorld).

(** The first question on screen, no answer chosen. *)
Definition askingWorld : World := Eval vm_compute in worldAfter loaded.

(** The first question answered. *)
Definition answeredWorld : World :=
  Eval vm_compute in worldAfter (loaded ++ [AnswerSelect "Paris"]).

(** The last question answered, score 1. *)
Definition lastAnsweredWorld : World := Eval vm_compute in worldAfter played.

(** The result screen, score 1 of 2. *)
Definition finishedWorld : World :=
  Eval vm_compute in worldAfter (played ++ [NextQuestion]).

(** Play Again clicked, the new request not yet settled. *)
Definition restartedWorld : World :=
  Eval vm_compute in worldAfter (played ++ [NextQuestion; StartQuiz]).

(** The first start clicked, the request not yet settled. *)
Definition loadingWorld : World := Eval vm_compute in worldAfter [StartQuiz].


(** Two starts in a row by direct calls, the first request answered with the
    first sample question alone, and that question answered. *)
Definition twiceStartedWorld : World :=
  Eval vm_compute in
    worldAfter [StartQuiz; StartQuiz;
                Settled (Response 200 (BodyData 0 [capital]));
                AnswerSelect "Paris"].

(** * Properties *)

Section Properties.

Variable random : nat → Z.
Variable decodeHtml : string → string.

Local Abbreviation shuffleArray := (shuffleArray random).
Local Abbreviation shuffleArray_store := (shuffleArray_store random).
Local Abbreviation formatQuestion := (formatQuestion random decodeHtml).
Local Abbreviation tryBlock := (tryBlock random decodeHtml).
Local Abbreviation fetchQuestions_settle := (fetchQuestions_settle random decodeHtml).
Local Abbreviation step := (step random decodeHtml).
Local Abbreviation run := (run random decodeHtml).
Local Abbreviation reachable := (reachable random decodeHtml).
Local Abbreviation dispatch := (dispatch random decodeHtml).
Local Abbreviation reachableByUser := (reachableByUser random decodeHtml).
Local Abbreviation drive := (drive random decodeHtml).

(** ** Sorting with a comparator that ignores its arguments *)

Lemma insert_permutation {A} (element : A) (rprefix : list A) (n : nat) :
  (insert random element rprefix n).1 ≡ₚ element :: rprefix.
Proof.
  revert n. induction rprefix as [|tmp rest IH]; intros n; [done|].
  cbn. destruct (0 <? random n - 2 ^ 52); cbn; [|done].
  specialize (IH (S n)). unfold bind.
  destruct (insert random element rest (S n)) as [shifted n'] eqn:E; cbn in *.
  rewrite IH. apply Permutation_swap.
Qed.

Lemma insertionLoop_permutation {A} (rsorted todo : list A) (n : nat) :
  (insertionLoop random rsorted todo n).1 ≡ₚ rsorted ++ todo.
Proof.
  revert rsorted n. induction todo as [|element todo IH]; intros rsorted n.
  - cbn. by rewrite app_nil_r, reverse_Permutation.
  - cbn. unfold bind.
    pose proof (insert_permutation element rsorted n) as Hins.
    destruct (insert random element rsorted n) as [rsorted' n']; cbn in *.
    rewrite IH, Hins. cbn. apply Permutation_middle.
Qed.

Lemma shuffleArray_permutation {A} (array : list A) (n : nat) :
  (shuffleArray array n).1 ≡ₚ array.
Proof. apply (insertionLoop_permutation [] array). Qed.

Lemma filter_absent (c : string) (l : list string) :
  c ∉ l → filter (λ a, a = c) l = [].
Proof.
  induction l as [|x l IH]; intros Hc; [done|].
  apply not_elem_of_cons in Hc as [Hne Hc].
  rewrite filter_cons_False by congruence. by apply IH.
Qed.

Lemma count_one_of_NoDup (c : string) (l : list string) :
  NoDup l → c ∈ l → length (filter (λ a, a = c) l) = 1%nat.
Proof.
  induction 1 as [|x l Hx Hnd IH]; intros Hc; [by apply elem_of_nil in Hc|].
  destruct (decide (x = c)) as [->|Hne].
  - rewrite filter_cons_True by done. cbn. by rewrite filter_absent.
  - rewrite filter_cons_False by done.
    apply IH. apply elem_of_cons in Hc as [->|]; [contradiction|done].
Qed.

(** ** The formatter *)

(** C7. For a raw question with [n] incorrect answers whose decoded answer
    strings are pairwise distinct, the formatted question has [n + 1]
    answers, its [correct_answer] occurs among them exactly once, and every
    entry is the decoding of one of the raw answers: the answers are a
    rearrangement of the decoded incorrect answers followed by the decoded
    correct one. *)
Theorem formatQuestion_answers (questionItem : Raw.t) (n : nat) :
  NoDup (map decodeHtml (Raw.incorrect_answers questionItem
                           ++ [Raw.correct_answer questionItem])) →
  let q := (formatQuestion questionItem n).1 in
  length (answers q) = S (length (Raw.incorrect_answers questionItem))
  ∧ correct_answer q = decodeHtml (Raw.correct_answer questionItem)
  ∧ length (filter (λ a, a = correct_answer q) (answers q)) = 1%nat
  ∧ answers q ≡ₚ map decodeHtml (Raw.incorrect_answers questionItem
                                    ++ [Raw.correct_answer questionItem])
  ∧ Forall (λ a, ∃ raw, raw ∈ Raw.incorrect_answers questionItem
                               ++ [Raw.correct_answer questionItem]
                        ∧ a = decodeHtml raw) (answers q).
Proof.
  intros Hdistinct q.
  set (pool := map decodeHtml (Raw.incorrect_answers questionItem)
                 ++ [decodeHtml (Raw.correct_answer questionItem)]).
  assert (Hq : answers q = (shuffleArray pool n).1 ∧
               correct_answer q = decodeHtml (Raw.correct_answer questionItem)).
  { subst q. unfold formatQuestion, bind.
    fold pool. by destruct (shuffleArray pool n). }
  destruct Hq as [Hanswers Hcorrect].
  assert (Hperm : answers q ≡ₚ pool).
  { rewrite Hanswers. apply shuffleArray_permutation. }
  assert (Hpool : pool = map decodeHtml (Raw.incorrect_answers questionItem
                                           ++ [Raw.correct_answer questionItem])).
  { subst pool. by rewrite map_app. }
  split_and!.
  - rewrite Hperm. subst pool. rewrite length_app, length_map. cbn. lia.
  - done.
  - rewrite Hperm. apply count_one_of_NoDup.
    + by rewrite Hpool.
    + rewrite Hcorrect. subst pool. apply elem_of_app. right. apply list_elem_of_singleton. done.
  - by rewrite Hperm, Hpool.
  - apply Forall_forall. intros a Ha. rewrite Hperm, Hpool in Ha.
    apply list_elem_of_fmap in Ha as (raw & -> & Hraw). eauto.
Qed.

(** ** The shuffler *)

(** C8. Called on any array, [shuffleArray] returns a new array (an address
    that was free before the call) whose elements are a rearrangement of the
    elements of the argument, and the store is otherwise as before: the
    argument still holds the same elements in the same order. *)
Theorem shuffleArray_fresh_permutation {A} (array : nat)
    (σ : gmap nat (list A)) (elements : list A) (n : nat) :
  σ !! array = Some elements →
  ∃ copy σ' shuffled n',
    shuffleArray_store array σ n = (Some (copy, σ'), n')
    ∧ σ !! copy = None
    ∧ copy ≠ array
    ∧ σ' !! copy = Some shuffled
    ∧ shuffled ≡ₚ elements
    ∧ shuffled = (shuffleArray elements n).1
    ∧ σ' !! array = Some elements
    ∧ ∀ other, other ≠ copy → σ' !! other = σ !! other.
Proof.
  intros Harray.
  set (copy := fresh (dom σ)).
  assert (Hfree : σ !! copy = None).
  { apply not_elem_of_dom. apply is_fresh. }
  assert (Hne : copy ≠ array) by (intros ->; congruence).
  destruct (shuffleArray elements n) as [shuffled n'] eqn:Hshuffle.
  exists copy, (<[copy := shuffled]> (<[copy := elements]> σ)), shuffled, n'.
  split_and!; try done.
  - unfold shuffleArray_store, spread. rewrite Harray. fold copy.
    unfold sort_in_place. rewrite lookup_insert_eq.
    unfold bind. unfold shuffleArray in Hshuffle. by rewrite Hshuffle.
  - apply lookup_insert_eq.
  - pose proof (shuffleArray_permutation elements n) as Hp.
    by rewrite Hshuffle in Hp.
  - by rewrite !lookup_insert_ne.
  - intros other Hother. by rewrite !lookup_insert_ne.
Qed.

(** ** The handlers, one call at a time *)

Ltac open_state s :=
  destruct s as [gs qs idx sc sel answered ld err]; cbn in *.

Ltac by_cases :=
  repeat match goal with
         | |- context [if ?b then _ else _] => destruct b eqn:?
         | |- context [match ?o with Some _ => _ | None => _ end] =>
             destruct o eqn:?
         | H : context [if ?b then _ else _] |- _ => destruct b eqn:?
         end; cbn in *; try done.

Lemma js_index_Some {A} (a : list A) (i : Z) :
  is_Some (js_index a i) ↔ 0 ≤ i < js_length a.
Proof.
  unfold js_index, js_length. destruct (Z.ltb_spec i 0) as [Hneg|Hpos].
  - split; [by intros [? ?]|lia].
  - rewrite lookup_lt_is_Some. lia.
Qed.

Lemma handleAnswerSelect_answered (answer : string) (s : State) :
  isAnswered s = true → handleAnswerSelect answer s = Returned s.
Proof. intros H. unfold handleAnswerSelect. by rewrite H. Qed.

Lemma handleAnswerSelect_sets_answered (answer : string) (s : State) :
  isAnswered (stateAfter (handleAnswerSelect answer s)) = true.
Proof.
  unfold handleAnswerSelect. destruct (isAnswered s) eqn:E; [done|].
  by_cases.
Qed.

(** C4. In every Active state with no answer chosen yet, and for every
    answer, [handleAnswerSelect] stores the answer as the selected answer
    and sets [isAnswered]; the score grows by exactly 1 if and only if the
    answer is equal, as a string, to the [correct_answer] of
    [questions[currentQuestionIndex]], and is unchanged otherwise; no other
    cell changes, and when that question exists the handler returns. *)
Theorem handleAnswerSelect_active (answer : string) (s : State) :
  phase s = Active →
  isAnswered s = false →
  let s' := stateAfter (handleAnswerSelect answer s) in
  let correct :=
    ∃ currentQuestion,
      js_index (questions s) (currentQuestionIndex s) = Some currentQuestion
      ∧ answer = correct_answer currentQuestion in
  selectedAnswer s' = Some answer
  ∧ isAnswered s' = true
  ∧ (score s' = score s + 1 ↔ correct)
  ∧ (¬ correct → score s' = score s)
  ∧ gameState s' = gameState s ∧ questions s' = questions s
  ∧ currentQuestionIndex s' = currentQuestionIndex s
  ∧ loading s' = loading s ∧ error s' = error s
  ∧ (is_Some (js_index (questions s) (currentQuestionIndex s)) →
     handleAnswerSelect answer s = Returned s').
Proof.
  intros _ Hopen s' correct. subst s' correct. unfold handleAnswerSelect.
  rewrite Hopen.
  destruct (js_index (questions s) (currentQuestionIndex s)) as [q|].
  - case_bool_decide as Hanswer; cbn.
    + split_and!; try done.
      * split; [intros _; by exists q|done].
      * intros Hnot. destruct Hnot. by exists q.
    + split_and!; try done.
      split; [lia|]. intros (q' & [= <-] & Heq). done.
  - cbn. split_and!; try done.
    split; [lia|]. by intros (q' & ? & _).
Qed.

(** What [handleNextQuestion] does in each of its two branches. *)
Lemma handleNextQuestion_more (s : State) :
  currentQuestionIndex s < js_length (questions s) - 1 →
  handleNextQuestion s
  = setIsAnswered false
      (setSelectedAnswer None
         (setCurrentQuestionIndex (λ prevIndex, prevIndex + 1) s)).
Proof.
  intros H. unfold handleNextQuestion.
  by destruct (Z.ltb_spec (currentQuestionIndex s) (js_length (questions s) - 1)); [|lia].
Qed.

Lemma handleNextQuestion_last (s : State) :
  ¬ currentQuestionIndex s < js_length (questions s) - 1 →
  handleNextQuestion s = setGameState finished s.
Proof.
  intros H. unfold handleNextQuestion.
  by destruct (Z.ltb_spec (currentQuestionIndex s) (js_length (questions s) - 1)).
Qed.

(** Once the quiz is finished on its last question, with no request in
    flight, the cells stay as they are until the quiz is started again. *)
Local Abbreviation frozen s w := (app w = s ∧ inflight w = 0%nat).

Lemma frozen_step (s : State) (e : Event) (w w' : World) :
  gameState s = finished → isAnswered s = true →
  ¬ currentQuestionIndex s < js_length (questions s) - 1 →
  frozen s w → e ≠ StartQuiz → step e w = Some w' → frozen s w'.
Proof.
  intros Hfin Hans Hlast [Happ Hnone] Hstart Hstep.
  destruct e as [|answer| |r]; cbn in Hstep; [done|..].
  - injection Hstep as <-. split; [|done]. cbn.
    by rewrite Happ, handleAnswerSelect_answered.
  - injection Hstep as <-. split; [|done]. cbn.
    rewrite Happ, handleNextQuestion_last by done.
    destruct s; cbn in *; by subst.
  - by rewrite Hnone in Hstep.
Qed.

Lemma frozen_run (s : State) (es : list Event) (w w' : World) :
  gameState s = finished → isAnswered s = true →
  ¬ currentQuestionIndex s < js_length (questions s) - 1 →
  frozen s w → StartQuiz ∉ es → run es w = Some w' → frozen s w'.
Proof.
  intros Hfin Hans Hlast. revert w.
  induction es as [|e es IH]; intros w Hw Hes Hrun; cbn in Hrun.
  - by injection Hrun as <-.
  - apply not_elem_of_cons in Hes as [Hne Hes].
    destruct (step e w) as [w1|] eqn:Hstep; [|done].
    eapply IH; [|done..]. eapply frozen_step; eauto.
Qed.

(** ** Which handler can run when *)

Lemma renderContent_question (s : State) q number total disabled nextButton :
  renderContent s = QuestionScreen q number total disabled nextButton →
  phase s = Active
  ∧ js_index (questions s) (currentQuestionIndex s) = Some q
  ∧ disabled = isAnswered s ∧ nextButton = isAnswered s.
Proof.
  unfold renderContent, phase. intros H.
  destruct (loading s); [done|].
  destruct (gameState s); cbn in H; try done.
  destruct (0 <? js_length (questions s)); [|done].
  destruct (js_index (questions s) (currentQuestionIndex s)); [|done].
  by injection H as -> _ _ -> ->.
Qed.

(** An answer button, when there is one to click, calls a handler that
    returns: the button was drawn from the question the handler reads. *)
Lemma offered_answer_returns (answer : string) (s : State) :
  offered (AnswerSelect answer) (renderContent s) = true →
  ∃ s', handleAnswerSelect answer s = Returned s'.
Proof.
  destruct (renderContent s) eqn:Hview; try done. intros _.
  apply renderContent_question in Hview as (_ & Hq & _).
  unfold handleAnswerSelect. rewrite Hq. by_cases; eauto.
Qed.

(** C2, as the code has it. [handleNextQuestion] tests nothing but the
    index; what keeps it from running at the wrong time is [renderContent],
    which puts the button that calls it on screen only when the phase is
    Active, a current question exists and [isAnswered] holds.  So when the
    phase is not Active or no answer is chosen, a click on that button
    cannot occur and the world is left as it is. *)
Theorem dispatch_NextQuestion_guarded (w : World) :
  phase (app w) ≠ Active ∨ isAnswered (app w) = false →
  offered NextQuestion (renderContent (app w)) = false
  ∧ dispatch NextQuestion w = Some w.
Proof.
  intros Hguard.
  assert (Hoff : offered NextQuestion (renderContent (app w)) = false).
  { destruct (renderContent (app w)) eqn:Hview; try done. cbn.
    apply renderContent_question in Hview as (Hphase & _ & _ & ->).
    destruct Hguard as [Hguard|Hguard]; [by destruct Hguard|done]. }
  split; [done|]. unfold dispatch. by rewrite Hoff.
Qed.

(** C3, as the code has it. When an answer has already been chosen,
    [handleAnswerSelect] returns at once and changes no cell, whatever the
    answer; so of two calls in a row only the first can count towards the
    score.  The handler does not look at the phase: outside the Active phase
    it is [renderContent] that offers no answer button, so that a click
    cannot occur and the world is left as it is. *)
Theorem handleAnswerSelect_guarded (answer first : string) (w : World) :
  (isAnswered (app w) = true →
     handleAnswerSelect answer (app w) = Returned (app w))
  ∧ (let s1 := stateAfter (handleAnswerSelect first (app w)) in
     handleAnswerSelect answer s1 = Returned s1)
  ∧ (isAnswered (app w) = true ∨ phase (app w) ≠ Active →
     offered (AnswerSelect answer) (renderContent (app w)) = false
     ∧ dispatch (AnswerSelect answer) w = Some w).
Proof.
  split_and!.
  - apply handleAnswerSelect_answered.
  - intros s1. apply handleAnswerSelect_answered.
    apply handleAnswerSelect_sets_answered.
  - intros Hguard.
    assert (Hoff : offered (AnswerSelect answer) (renderContent (app w)) = false).
    { destruct (renderContent (app w)) eqn:Hview; try done. cbn.
      apply renderContent_question in Hview as (Hphase & _ & -> & _).
      destruct Hguard as [->|Hguard]; [done|by destruct Hguard]. }
    split; [done|]. unfold dispatch. by rewrite Hoff.
Qed.

(** ** The request *)

Lemma fetchQuestions_settle_thrown (r : FetchResult) (s : State) (n : nat)
    (message : string) :
  (tryBlock r n).1 = inl message →
  (fetchQuestions_settle r s n).1
  = setLoading false (setGameState start (setError (Some message) s)).
Proof.
  unfold fetchQuestions_settle, bind.
  destruct (tryBlock r n) as [[m|qs] n']; cbn; congruence.
Qed.

Lemma fetchQuestions_settle_formatted (r : FetchResult) (s : State) (n : nat)
    (formattedQuestions : list Question) :
  (tryBlock r n).1 = inr formattedQuestions →
  (fetchQuestions_settle r s n).1
  = setLoading false (setQuestions formattedQuestions s).
Proof.
  unfold fetchQuestions_settle, bind.
  destruct (tryBlock r n) as [[m|qs] n']; cbn; congruence.
Qed.

(** A settled request touches neither the score, nor the index, nor the
    answer cells. *)
Lemma fetchQuestions_settle_keeps (r : FetchResult) (s : State) (n : nat) :
  let s' := (fetchQuestions_settle r s n).1 in
  score s' = score s ∧ currentQuestionIndex s' = currentQuestionIndex s
  ∧ isAnswered s' = isAnswered s ∧ selectedAnswer s' = selectedAnswer s.
Proof.
  unfold fetchQuestions_settle, bind.
  by destruct (tryBlock r n) as [[m|qs] n'].
Qed.

Lemma ok_range (status : Z) : ok status = true ↔ 200 ≤ status ≤ 299.
Proof. unfold ok. rewrite andb_true_iff, !Z.leb_le. done. Qed.

(** ** Starting *)

(** C1, as the code has it. From any state, [handleStartQuiz] sets the index
    and the score to 0, clears the selected answer, [isAnswered] and
    [error], and marks the session as loading, all before the request
    settles; [questions] keeps the value it had.  When the request then
    fails, the phase is Failed, the score is 0 and [questions] is still what
    it was before the start: empty if it was empty. *)
Theorem handleStartQuiz_resets (s : State) :
  let s1 := handleStartQuiz s in
  currentQuestionIndex s1 = 0 ∧ score s1 = 0
  ∧ selectedAnswer s1 = None ∧ isAnswered s1 = false ∧ error s1 = None
  ∧ phase s1 = Loading
  ∧ questions s1 = questions s
  ∧ ∀ r n message, (tryBlock r n).1 = inl message →
      let s2 := (fetchQuestions_settle r s1 n).1 in
      phase s2 = Failed ∧ error s2 = Some message ∧ score s2 = 0
      ∧ currentQuestionIndex s2 = 0
      ∧ questions s2 = questions s
      ∧ (questions s = [] → questions s2 = []).
Proof.
  intros s1. subst s1. split_and!; try done.
  intros r n message Hthrown s2. subst s2.
  rewrite (fetchQuestions_settle_thrown _ _ _ _ Hthrown). by split_and!.
Qed.

(** ** The score along a run *)

Local Abbreviation answeredCount s :=
  (currentQuestionIndex s + if isAnswered s then 1 else 0).

Lemma step_score_bounds (e : Event) (w w' : World) :
  0 ≤ score (app w) ≤ answeredCount (app w) →
  step e w = Some w' →
  0 ≤ score (app w') ≤ answeredCount (app w').
Proof.
  intros Hinv Hstep. destruct e as [|answer| |r]; cbn in Hstep.
  - by injection Hstep as <-.
  - injection Hstep as <-. cbn. unfold handleAnswerSelect.
    destruct (isAnswered (app w)) eqn:Hans; [cbn; rewrite Hans; lia|].
    by_cases; lia.
  - injection Hstep as <-. cbn. unfold handleNextQuestion.
    by_cases; destruct (isAnswered (app w)); lia.
  - destruct (inflight w); [done|].
    pose proof (fetchQuestions_settle_keeps r (app w) (drawn w))
      as (Hsc & Hidx & Hans & _).
    destruct (fetchQuestions_settle r (app w) (drawn w)) as [s' n'].
    injection Hstep as <-. cbn in *. by rewrite Hsc, Hidx, Hans.
Qed.

Lemma step_score_monotone (e : Event) (w w' : World) :
  step e w = Some w' → e ≠ StartQuiz → score (app w) ≤ score (app w').
Proof.
  intros Hstep Hne. destruct e as [|answer| |r]; [done|..]; cbn in Hstep.
  - injection Hstep as <-. cbn. unfold handleAnswerSelect. by_cases; lia.
  - injection Hstep as <-. cbn. unfold handleNextQuestion. by_cases.
  - destruct (inflight w); [done|].
    pose proof (fetchQuestions_settle_keeps r (app w) (drawn w)) as (Hsc & _).
    destruct (fetchQuestions_settle r (app w) (drawn w)) as [s' n'].
    injection Hstep as <-. cbn in *. lia.
Qed.

Lemma reachable_score_bounds (w : World) :
  reachable w → 0 ≤ score (app w) ≤ answeredCount (app w).
Proof.
  induction 1 as [|e w w' _ IH Hstep]; [done|].
  by apply (step_score_bounds e w w').
Qed.

(** C6. In every world reached from the initial one by starts, answer
    selections, advances and settled requests, in any order, the score is
    at least 0 and at most the index plus 1 if the current question is
    answered; every transition other than a start leaves the score at least
    as large as it was, so the score goes down only by a start, which sets
    it to 0. *)
Theorem score_invariant (w : World) :
  reachable w →
  0 ≤ score (app w)
  ∧ score (app w) ≤ currentQuestionIndex (app w)
                     + (if isAnswered (app w) then 1 else 0)
  ∧ ∀ e w', step e w = Some w' →
      (e ≠ StartQuiz → score (app w) ≤ score (app w'))
      ∧ (score (app w') < score (app w) → e = StartQuiz)
      ∧ (e = StartQuiz → score (app w') = 0).
Proof.
  intros Hreach. pose proof (reachable_score_bounds w Hreach) as [Hlo Hhi].
  split_and!; try done. intros e w' Hstep. split_and!.
  - by apply step_score_monotone.
  - intros Hless. destruct e as [|answer| |r]; [done|..]; exfalso;
      (eapply Z.lt_irrefl, Z.lt_le_trans;
       [exact Hless|by eapply step_score_monotone]).
  - intros ->. cbn in Hstep. by injection Hstep as <-.
Qed.

(** ** Reading the current question *)

(** C10. With no answer chosen yet, [handleAnswerSelect] reads
    [questions[currentQuestionIndex].correct_answer] unguarded: it returns
    exactly when [questions] is not empty and the index is within
    [0 .. length - 1], and raises a [TypeError] otherwise.  A state outside
    that range is reachable: right after [handleStartQuiz], before the
    request settles, the session is marked active with no answer chosen
    while [questions] is still empty, and there every call raises. *)
Theorem handleAnswerSelect_reads_unguarded :
  (∀ (answer : string) (s : State),
     isAnswered s = false →
     ((∃ s', handleAnswerSelect answer s = Returned s')
      ↔ questions s ≠ []
        ∧ 0 ≤ currentQuestionIndex s < js_length (questions s))
     ∧ ((∃ s', handleAnswerSelect answer s = TypeError s')
        ↔ ¬ 0 ≤ currentQuestionIndex s < js_length (questions s)))
  ∧ ∃ w, reachable w
      ∧ step StartQuiz initialWorld = Some w
      ∧ gameState (app w) = active ∧ isAnswered (app w) = false
      ∧ questions (app w) = []
      ∧ ∀ answer, ∃ s', handleAnswerSelect answer (app w) = TypeError s'.
Proof.
  split.
  - intros answer s Hopen. unfold handleAnswerSelect. rewrite Hopen.
    pose proof (js_index_Some (questions s) (currentQuestionIndex s)) as Hidx.
    destruct (js_index (questions s) (currentQuestionIndex s)) as [q|].
    + assert (Hin : 0 ≤ currentQuestionIndex s < js_length (questions s))
        by (apply Hidx; eauto).
      assert (Hne : questions s ≠ []).
      { intros Hnil. rewrite Hnil in Hin. unfold js_length in Hin.
        cbn in Hin. lia. }
      split; (split; intros H).
      * done.
      * case_bool_decide; eauto.
      * destruct H as [s' H]. by case_bool_decide.
      * done.
    + assert (Hout : ¬ 0 ≤ currentQuestionIndex s < js_length (questions s)).
      { intros Hin. apply Hidx in Hin. by destruct Hin. }
      split; (split; intros H).
      * by destruct H.
      * by destruct H as [_ H].
      * done.
      * eauto.
  - exists {| app := handleStartQuiz initialState;
               inflight := 1; drawn := 0 |}. split_and!.
    + by eapply reachable_step with (e := StartQuiz);
        [apply reachable_initial|].
    + done.
    + done.
    + done.
    + done.
    + intros answer. by eexists.
Qed.

Lemma run_reachable (es : list Event) (w w' : World) :
  reachable w → run es w = Some w' → reachable w'.
Proof.
  revert w. induction es as [|e es IH]; intros w Hw Hrun; cbn in Hrun.
  - by injection Hrun as <-.
  - destruct (step e w) as [w1|] eqn:Hstep; [|done].
    eapply IH; [|done]. by eapply reachable_step.
Qed.

(** ** Worlds a user can reach

    Driven through the buttons on screen, the application has at most one
    request in flight, and has one exactly while it shows the spinner. *)

Lemma reachableByUser_reachable (w : World) : reachableByUser w → reachable w.
Proof.
  induction 1 as [|e w w' _ IH Hstep]; [apply reachable_initial|].
  unfold dispatch in Hstep.
  destruct (offered e (renderContent (app w))).
  - by eapply reachable_step.
  - by injection Hstep as <-.
Qed.

Lemma handleAnswerSelect_loading (answer : string) (s : State) :
  loading (stateAfter (handleAnswerSelect answer s)) = loading s.
Proof. unfold handleAnswerSelect. by_cases. Qed.

Lemma handleNextQuestion_loading (s : State) :
  loading (handleNextQuestion s) = loading s.
Proof. unfold handleNextQuestion. by_cases. Qed.

Lemma reachableByUser_inflight (w : World) :
  reachableByUser w →
  inflight w = if loading (app w) then 1%nat else 0%nat.
Proof.
  induction 1 as [|e w w' _ IH Hstep]; [done|].
  unfold dispatch in Hstep.
  destruct (offered e (renderContent (app w))) eqn:Hoff;
    [|by injection Hstep as <-].
  destruct e as [|answer| |r]; cbn in Hstep.
  - assert (Hld : loading (app w) = false).
    { unfold renderContent in Hoff. by destruct (loading (app w)). }
    rewrite Hld in IH. injection Hstep as <-. cbn. by rewrite IH.
  - injection Hstep as <-. cbn. by rewrite handleAnswerSelect_loading.
  - injection Hstep as <-. cbn. by rewrite handleNextQuestion_loading.
  - destruct (inflight w) as [|pending] eqn:Hfl; [done|].
    assert (Hld : loading (fetchQuestions_settle r (app w) (drawn w)).1 = false).
    { unfold fetchQuestions_settle, bind.
      by destruct (tryBlock r (drawn w)) as [[m|qs] n']. }
    destruct (fetchQuestions_settle r (app w) (drawn w)) as [s' n'].
    injection Hstep as <-. cbn in *. rewrite Hld.
    destruct (loading (app w)); congruence.
Qed.

(** So whenever the spinner is not shown, nothing is in flight. *)
Corollary reachableByUser_idle (w : World) :
  reachableByUser w → loading (app w) = false → inflight w = 0%nat.
Proof. intros Hw Hld. rewrite (reachableByUser_inflight w Hw). by rewrite Hld. Qed.

(** C5, as the code has it. In an Active state whose question is answered:
    when the current question is not the last, [handleNextQuestion] moves
    to the next index and clears the selected answer and [isAnswered];
    otherwise it sets the phase to Finished, and from then on, provided no
    request is still in flight, no answer selection and no further advance
    changes the score: it keeps its value until [handleStartQuiz] runs
    again.  Driven through its buttons the application has no request in
    flight in such a state. *)
Theorem handleNextQuestion_active (s : State) :
  phase s = Active →
  isAnswered s = true →
  let s' := handleNextQuestion s in
  (currentQuestionIndex s < js_length (questions s) - 1 →
     currentQuestionIndex s' = currentQuestionIndex s + 1
     ∧ selectedAnswer s' = None ∧ isAnswered s' = false
     ∧ phase s' = Active ∧ score s' = score s
     ∧ questions s' = questions s)
  ∧ (¬ currentQuestionIndex s < js_length (questions s) - 1 →
     phase s' = Finished ∧ score s' = score s
     ∧ currentQuestionIndex s' = currentQuestionIndex s
     ∧ selectedAnswer s' = selectedAnswer s ∧ isAnswered s' = true
     ∧ questions s' = questions s
     ∧ ∀ es w w', app w = s' → inflight w = 0%nat → StartQuiz ∉ es →
         run es w = Some w' →
         score (app w') = score s ∧ phase (app w') = Finished)
  ∧ (∀ w, reachableByUser w → app w = s → inflight w = 0%nat).
Proof.
  intros Hphase Hans s'. subst s'.
  assert (Hld : loading s = false).
  { unfold phase in Hphase. by destruct (loading s). }
  split_and!.
  - intros Hidx. rewrite handleNextQuestion_more by done.
    unfold phase in *. open_state s. by_cases.
  - intros Hidx. rewrite handleNextQuestion_last by done.
    split_and!; try done.
    + unfold phase. cbn. by rewrite Hld.
    + intros es w w' Happ Hnone Hes Hrun.
      assert (Hw' : frozen (setGameState finished s) w').
      { eapply (frozen_run (setGameState finished s) es w); try done. }
      destruct Hw' as [-> _]. unfold phase. cbn. by rewrite Hld.
  - intros w Hw Happ. apply reachableByUser_idle; [done|]. by rewrite Happ.
Qed.


(** * Further properties of the same code *)

(** ** What a successful request stores *)

Local Abbreviation formattedFrom q raw :=
  (question q = decodeHtml (Raw.question raw)
   ∧ correct_answer q = decodeHtml (Raw.correct_answer raw)
   ∧ incorrect_answers q = map decodeHtml (Raw.incorrect_answers raw)
   ∧ others q = Raw.others raw
   ∧ answers q ≡ₚ incorrect_answers q ++ [correct_answer q]
   ∧ correct_answer q ∈ answers q).

Lemma formatQuestion_formattedFrom (raw : Raw.t) (n : nat) :
  formattedFrom (formatQuestion raw n).1 raw.
Proof.
  unfold formatQuestion, bind.
  pose proof (shuffleArray_permutation
                (map decodeHtml (Raw.incorrect_answers raw)
                   ++ [decodeHtml (Raw.correct_answer raw)]) n) as Hperm.
  destruct (shuffleArray _ n) as [shuffled n']; cbn in *.
  split_and!; try done.
  rewrite Hperm. apply elem_of_app. right. by apply list_elem_of_singleton.
Qed.

Lemma mapR_formatQuestion (results : list Raw.t) (n : nat) :
  Forall2 (λ q raw, formattedFrom q raw)
    (mapR formatQuestion results n).1 results.
Proof.
  revert n. induction results as [|raw results IH]; intros n; cbn.
  - constructor.
  - unfold bind.
    pose proof (formatQuestion_formattedFrom raw n) as Hq.
    destruct (formatQuestion raw n) as [q n1]. specialize (IH n1).
    destruct (mapR formatQuestion results n1) as [qs n2].
    cbn in *. by constructor.
Qed.

Lemma tryBlock_succeeds (r : FetchResult) (n : nat) :
  succeeds r = true →
  ∃ status results,
    r = Response status (BodyData 0 results)
    ∧ (tryBlock r n).1 = inr (mapR formatQuestion results n).1.
Proof.
  destruct r as [m|status [m|rc results|rc readable m]]; cbn; try done.
  intros [Hok Hrc]%andb_true_iff. apply bool_decide_eq_true in Hrc as ->.
  exists status, results. split; [done|]. rewrite Hok. cbn.
  case_bool_decide; [done|]. unfold bind.
  by destruct (mapR formatQuestion results n).
Qed.

Lemma tryBlock_fails (r : FetchResult) (n : nat) :
  succeeds r = false → ∃ message, (tryBlock r n).1 = inl message.
Proof.
  destruct r as [m|status [m|rc results|rc readable m]]; cbn; intros Hfail.
  - by eexists.
  - destruct (ok status); by eexists.
  - destruct (ok status); cbn in *; [|by eexists].
    apply bool_decide_eq_false in Hfail.
    rewrite bool_decide_true by done. by eexists.
  - destruct (ok status); cbn; [|by eexists].
    case_bool_decide; [by eexists|]. unfold bind.
    destruct (mapR formatQuestion readable n). by eexists.
Qed.


(** X1. When the request succeeds, [questions] receives one formatted
    question for each entry of [results], in the order of [results]: its
    texts are the decoded texts of that entry, the fields the program does
    not name are carried over, and its answer buttons are a rearrangement of
    the decoded incorrect answers and the decoded correct one, so the
    correct answer is always among the buttons. *)
Theorem tryBlock_formats_each (status : Z) (results : list Raw.t) (n : nat) :
  200 ≤ status ≤ 299 →
  ∃ formattedQuestions,
    (tryBlock (Response status (BodyData 0 results)) n).1
    = inr formattedQuestions
    ∧ length formattedQuestions = length results
    ∧ Forall2 (λ q raw, formattedFrom q raw) formattedQuestions results.
Proof.
  intros Hstatus. apply ok_range in Hstatus.
  destruct (tryBlock_succeeds (Response status (BodyData 0 results)) n)
    as (status' & results' & [= <- <-] & Htry).
  { cbn. by rewrite Hstatus. }
  eexists. split; [exact Htry|].
  pose proof (mapR_formatQuestion results n) as Hall.
  split; [by eapply Forall2_length|done].
Qed.

(** X2. From any world, a start followed by a successful request leads to
    the Active phase on the first question with score 0, no answer chosen
    and no error shown; [questions] holds exactly the newly formatted
    questions, whatever it held before. *)
Theorem start_then_success (w : World) (status : Z) (results : list Raw.t) :
  200 ≤ status ≤ 299 →
  ∃ w', run [StartQuiz; Settled (Response status (BodyData 0 results))] w
        = Some w'
    ∧ phase (app w') = Active
    ∧ currentQuestionIndex (app w') = 0 ∧ score (app w') = 0
    ∧ selectedAnswer (app w') = None ∧ isAnswered (app w') = false
    ∧ error (app w') = None
    ∧ questions (app w') = (mapR formatQuestion results (drawn w)).1
    ∧ length (questions (app w')) = length results
    ∧ inflight w' = inflight w.
Proof.
  intros Hstatus.
  destruct (tryBlock_formats_each status results (drawn w) Hstatus)
    as (qs & Htry & Hlen & _).
  destruct (tryBlock_succeeds (Response status (BodyData 0 results)) (drawn w))
    as (status' & results' & [= <- <-] & Htry').
  { cbn. apply ok_range in Hstatus. by rewrite Hstatus. }
  assert (qs = (mapR formatQuestion results (drawn w)).1) as Hqs by congruence.
  cbn [run step app inflight drawn].
  pose proof (fetchQuestions_settle_formatted
                (Response status (BodyData 0 results))
                (handleStartQuiz (app w)) (drawn w) qs Htry) as Hsettle.
  destruct (fetchQuestions_settle _ (handleStartQuiz (app w)) (drawn w))
    as [s' n']. cbn in Hsettle. subst s'.
  eexists. split; [done|]. cbn. by split_and!; try congruence.
Qed.

(** X3. A settled request, whatever its outcome, ends the loading state and
    leaves the score, the index, the selected answer and [isAnswered] as
    they were.  When it succeeds, [gameState] and [error] are also as they
    were; when it fails, [questions] is as it was and the application is
    back on the start screen with a message in [error]. *)
Theorem fetchQuestions_settle_frame (r : FetchResult) (s : State) (n : nat) :
  let s' := (fetchQuestions_settle r s n).1 in
  loading s' = false
  ∧ score s' = score s
  ∧ currentQuestionIndex s' = currentQuestionIndex s
  ∧ selectedAnswer s' = selectedAnswer s
  ∧ isAnswered s' = isAnswered s
  ∧ if succeeds r
    then gameState s' = gameState s ∧ error s' = error s
    else questions s' = questions s ∧ gameState s' = start
         ∧ is_Some (error s').
Proof.
  destruct (succeeds r) eqn:Hr.
  - destruct (tryBlock_succeeds r n Hr) as (status & results & _ & Htry).
    intros s'. subst s'.
    by rewrite (fetchQuestions_settle_formatted _ _ _ _ Htry).
  - destruct (tryBlock_fails r n Hr) as (message & Htry).
    intros s'. subst s'.
    rewrite (fetchQuestions_settle_thrown _ _ _ _ Htry). cbn. by split_and!.
Qed.

Lemma step_keeps_questions (e : Event) (w w' : World) :
  settlesWithQuestions e = false → step e w = Some w' →
  questions (app w') = questions (app w).
Proof.
  intros He Hstep. destruct e as [|answer| |r]; cbn in Hstep.
  - by injection Hstep as <-.
  - injection Hstep as <-. cbn. unfold handleAnswerSelect. by_cases.
  - injection Hstep as <-. cbn. unfold handleNextQuestion. by_cases.
  - destruct (inflight w); [done|]. cbn in He.
    pose proof (fetchQuestions_settle_frame r (app w) (drawn w)) as Hframe.
    rewrite He in Hframe. cbn in Hframe.
    destruct (fetchQuestions_settle r (app w) (drawn w)) as [s' n'].
    injection Hstep as <-. cbn in *. by destruct Hframe as (_&_&_&_&_&?&_).
Qed.

(** X4. [questions] is replaced only by a request that settles with
    questions: along any run in which no request succeeds (starts, answer
    selections, advances and failed requests, in any order), [questions]
    stays what it was. *)
Theorem questions_kept_without_success (es : list Event) (w w' : World) :
  Forall (λ e, settlesWithQuestions e = false) es →
  run es w = Some w' →
  questions (app w') = questions (app w).
Proof.
  revert w. induction es as [|e es IH]; intros w Hes Hrun; cbn in Hrun.
  - by injection Hrun as <-.
  - apply Forall_cons in Hes as [He Hes].
    destruct (step e w) as [w1|] eqn:Hstep; [|done].
    rewrite (IH w1 Hes Hrun). by eapply step_keeps_questions.
Qed.

(** ** A whole round *)

Lemma run_app (es1 es2 : list Event) (w : World) :
  run (es1 ++ es2) w
  = match run es1 w with Some w1 => run es2 w1 | None => None end.
Proof.
  revert w. induction es1 as [|e es1 IH]; intros w; cbn; [done|].
  by destruct (step e w).
Qed.

Lemma drop_cons_inv {A} (l : list A) (k : nat) (x : A) (rest : list A) :
  drop k l = x :: rest →
  l !! k = Some x ∧ drop (S k) l = rest
  ∧ length l = (k + 1 + length rest)%nat.
Proof.
  intros Hdrop. split_and!.
  - rewrite <- (Nat.add_0_r k), <- lookup_drop. by rewrite Hdrop.
  - replace (S k) with (k + 1)%nat by lia.
    rewrite <- drop_drop. by rewrite Hdrop.
  - assert (Hlen := length_drop l k). rewrite Hdrop in Hlen. cbn in Hlen.
    assert (k < length l)%nat; [|lia].
    apply lookup_lt_is_Some. rewrite <- (Nat.add_0_r k), <- lookup_drop.
    by rewrite Hdrop.
Qed.

(** One question answered and the button below it clicked. *)
Lemma answered_then_next (answer : string) (s : State) (q : Question) :
  isAnswered s = false →
  js_index (questions s) (currentQuestionIndex s) = Some q →
  let s2 := handleNextQuestion (stateAfter (handleAnswerSelect answer s)) in
  questions s2 = questions s ∧ loading s2 = loading s
  ∧ score s2 = score s + (if bool_decide (answer = correct_answer q)
                          then 1 else 0)
  ∧ (currentQuestionIndex s < js_length (questions s) - 1 →
     currentQuestionIndex s2 = currentQuestionIndex s + 1
     ∧ isAnswered s2 = false ∧ gameState s2 = gameState s)
  ∧ (¬ currentQuestionIndex s < js_length (questions s) - 1 →
     currentQuestionIndex s2 = currentQuestionIndex s
     ∧ isAnswered s2 = true ∧ gameState s2 = finished).
Proof.
  intros Hopen Hq s2. subst s2. unfold handleAnswerSelect.
  rewrite Hopen, Hq. unfold handleNextQuestion.
  destruct (bool_decide (answer = correct_answer q)); cbn;
    destruct (Z.ltb_spec (currentQuestionIndex s) (js_length (questions s) - 1));
    cbn; split_and!; try done; try lia.
Qed.

Lemma dispatch_offered (e : Event) (w : World) :
  offered e (renderContent (app w)) = true → dispatch e w = step e w.
Proof. intros H. unfold dispatch. by rewrite H. Qed.

Lemma handleAnswerSelect_frame (answer : string) (s : State) :
  let s' := stateAfter (handleAnswerSelect answer s) in
  gameState s' = gameState s ∧ questions s' = questions s
  ∧ currentQuestionIndex s' = currentQuestionIndex s
  ∧ loading s' = loading s ∧ error s' = error s.
Proof. unfold handleAnswerSelect. by_cases. Qed.

Lemma renderContent_asking (s : State) (q : Question) :
  loading s = false → gameState s = active →
  js_index (questions s) (currentQuestionIndex s) = Some q →
  renderContent s
  = QuestionScreen q (currentQuestionIndex s + 1) (js_length (questions s))
      (isAnswered s) (isAnswered s).
Proof.
  intros Hl Hg Hq. unfold renderContent. rewrite Hl, Hg, Hq. cbn.
  assert (Hrange : 0 ≤ currentQuestionIndex s < js_length (questions s)).
  { apply js_index_Some. by rewrite Hq. }
  by destruct (Z.ltb_spec 0 (js_length (questions s))); [|lia].
Qed.

(** With the question on screen, the click on one of its answers and the
    click on the button below are both taken. *)
Lemma drive_answer_next (answer : string) (es : list Event) (w : World)
    (q : Question) :
  loading (app w) = false → gameState (app w) = active →
  isAnswered (app w) = false →
  js_index (questions (app w)) (currentQuestionIndex (app w)) = Some q →
  answer ∈ answers q →
  drive (AnswerSelect answer :: NextQuestion :: es) w
  = drive es {| app := handleNextQuestion
                         (stateAfter (handleAnswerSelect answer (app w)));
                inflight := inflight w; drawn := drawn w |}.
Proof.
  intros Hl Hg Hopen Hq Hin.
  pose proof (handleAnswerSelect_frame answer (app w)) as (Hg1 & Hqs1 & Hi1 & Hl1 & _).
  pose proof (handleAnswerSelect_sets_answered answer (app w)) as Ha1.
  cbn [drive]. rewrite dispatch_offered.
  2:{ rewrite (renderContent_asking _ q) by done. cbn. rewrite Hopen. cbn.
      by apply bool_decide_eq_true. }
  cbn [step]. rewrite dispatch_offered.
  2:{ cbn [app]. rewrite (renderContent_asking _ q) by congruence. done. }
  done.
Qed.

Lemma answerAll_round (chosen : list string) (w : World) :
  gameState (app w) = active →
  isAnswered (app w) = false →
  0 ≤ currentQuestionIndex (app w) →
  chosen ≠ [] →
  length chosen
  = length (drop (Z.to_nat (currentQuestionIndex (app w))) (questions (app w))) →
  ∃ w', run (answerAll chosen) w = Some w'
    ∧ gameState (app w') = finished
    ∧ score (app w')
      = score (app w)
        + correctAnswers
            (drop (Z.to_nat (currentQuestionIndex (app w))) (questions (app w)))
            chosen
    ∧ currentQuestionIndex (app w') = js_length (questions (app w)) - 1
    ∧ questions (app w') = questions (app w)
    ∧ loading (app w') = loading (app w)
    ∧ inflight w' = inflight w ∧ drawn w' = drawn w
    ∧ (loading (app w) = false →
       Forall2 (λ answer q, answer ∈ answers q) chosen
         (drop (Z.to_nat (currentQuestionIndex (app w))) (questions (app w))) →
       drive (answerAll chosen) w = Some w').
Proof.
  revert w. induction chosen as [|answer chosen IH]; intros w Hactive Hopen
    Hidx Hsome Hlen; [done|].
  destruct (drop (Z.to_nat (currentQuestionIndex (app w))) (questions (app w)))
    as [|q rest] eqn:Hdrop; [done|].
  apply drop_cons_inv in Hdrop as (Hq & Hrest & Hall).
  assert (Hjs : js_index (questions (app w)) (currentQuestionIndex (app w))
                = Some q).
  { unfold js_index. by destruct (Z.ltb_spec (currentQuestionIndex (app w)) 0);
      [lia|]. }
  pose proof (answered_then_next answer (app w) q Hopen Hjs)
    as (Hqs & Hld & Hscore & Hmore & Hlast).
  set (w2 := {| app := handleNextQuestion
                         (stateAfter (handleAnswerSelect answer (app w)));
                inflight := inflight w; drawn := drawn w |}).
  assert (Hrun : run (answerAll (answer :: chosen)) w
                 = run (answerAll chosen) w2) by done.
  assert (Hdrive : loading (app w) = false → answer ∈ answers q →
                   drive (answerAll (answer :: chosen)) w
                   = drive (answerAll chosen) w2).
  { intros Hl Hin. by apply (drive_answer_next answer _ w q). }
  rewrite Hrun. cbn in Hlen. injection Hlen as Hlen.
  destruct chosen as [|answer' chosen'].
  - destruct rest; [|done]. cbn in Hall.
    destruct Hlast as (Hi & Ha & Hg).
    { unfold js_length. lia. }
    exists w2. cbn [run answerAll flat_map]. split; [done|].
    cbn [app inflight drawn w2] in *. split_and!; try done.
    + cbn. lia.
    + unfold js_length. lia.
    + intros Hl Hchosen. apply Forall2_cons_1 in Hchosen as [Hin _].
      exact (Hdrive Hl Hin).
  - destruct rest as [|q' rest']; [done|]. cbn in Hall.
    destruct Hmore as (Hi & Ha & Hg).
    { unfold js_length. lia. }
    assert (Hnat : Z.to_nat (currentQuestionIndex (app w2))
                   = S (Z.to_nat (currentQuestionIndex (app w)))).
    { cbn [app w2]. rewrite Hi. lia. }
    destruct (IH w2)
      as (w' & Hrun' & Hfin & Hsc & Hi' & Hqs' & Hld' & Hfl & Hdr & Hdrive').
    + cbn [app w2]. congruence.
    + done.
    + cbn [app w2]. lia.
    + done.
    + rewrite Hnat. cbn [app w2]. rewrite Hqs, Hrest. done.
    + exists w'. split; [done|]. rewrite Hnat in Hsc, Hdrive'.
      cbn [app w2 inflight drawn] in *. rewrite Hqs, Hrest in Hsc, Hdrive'.
      rewrite Hqs in Hi', Hqs'. split_and!; try done; try congruence.
      * rewrite Hsc, Hscore.
        change (correctAnswers (q :: q' :: rest') (answer :: answer' :: chosen'))
          with ((if bool_decide (answer = correct_answer q) then 1 else 0)
                + correctAnswers (q' :: rest') (answer' :: chosen')).
        lia.
      * intros Hl Hchosen. apply Forall2_cons_1 in Hchosen as [Hin Hchosen].
        rewrite Hdrive by done. apply Hdrive'; [congruence|done].
Qed.

(** X5. Answering every remaining question in turn and clicking the button
    below it each time ends the round: the application is on the result
    screen, the index is that of the last question, and the score has grown
    by exactly the number of chosen answers that equal the correct answer of
    their question. *)
Theorem answerAll_scores (chosen : list string) (w : World) :
  gameState (app w) = active →
  isAnswered (app w) = false →
  0 ≤ currentQuestionIndex (app w) →
  chosen ≠ [] →
  length chosen
  = length (drop (Z.to_nat (currentQuestionIndex (app w))) (questions (app w))) →
  ∃ w', run (answerAll chosen) w = Some w'
    ∧ gameState (app w') = finished
    ∧ score (app w')
      = score (app w)
        + correctAnswers
            (drop (Z.to_nat (currentQuestionIndex (app w))) (questions (app w)))
            chosen
    ∧ currentQuestionIndex (app w') = js_length (questions (app w)) - 1
    ∧ questions (app w') = questions (app w)
    ∧ loading (app w') = loading (app w)
    ∧ inflight w' = inflight w ∧ drawn w' = drawn w.
Proof.
  intros Hactive Hopen Hidx Hsome Hlen.
  destruct (answerAll_round chosen w Hactive Hopen Hidx Hsome Hlen)
    as (w' & H1 & H2 & H3 & H4 & H5 & H6 & H7 & H8 & _).
  exists w'. by split_and!.
Qed.

(** ** The application as its buttons drive it *)

Lemma offered_not_loading (e : Event) (s : State) :
  (∀ r, e ≠ Settled r) → offered e (renderContent s) = true →
  loading s = false.
Proof.
  intros He. unfold renderContent. destruct (loading s); [|done].
  destruct e; try done. by destruct (He r).
Qed.

Ltac close_goal :=
  first [ done | lia | left; lia | right; lia | right; done
        | intros; split_and?; first [done | lia | congruence] ].

Lemma reachableByUser_consistent (w : World) :
  reachableByUser w → consistent (app w).
Proof.
  induction 1 as [|e w w' Hw IH Hstep].
  { unfold consistent. cbn. split_and!; close_goal. }
  pose proof (reachableByUser_inflight w Hw) as Hflight.
  unfold dispatch in Hstep.
  destruct (offered e (renderContent (app w))) eqn:Hoff;
    [|by injection Hstep as <-].
  destruct IH as (Hpos & Hin & Hans & Hld & Hfin).
  destruct e as [|answer| |r]; cbn in Hstep.
  - injection Hstep as <-. unfold consistent. cbn.
    split_and!; close_goal.
  - destruct (renderContent (app w)) eqn:Hview; try done.
    apply renderContent_question in Hview as (Hphase & Hq & -> & _).
    cbn in Hoff. apply andb_true_iff in Hoff as [Hopen _].
    apply negb_true_iff in Hopen.
    assert (Hrange : 0 ≤ currentQuestionIndex (app w)
                     < js_length (questions (app w))).
    { apply js_index_Some. by rewrite Hq. }
    assert (Hl : loading (app w) = false).
    { unfold phase in Hphase. by destruct (loading (app w)). }
    assert (Hg : gameState (app w) = active).
    { unfold phase in Hphase. rewrite Hl in Hphase.
      by destruct (gameState (app w)); [destruct (error (app w))|..]. }
    injection Hstep as <-. unfold consistent, handleAnswerSelect.
    rewrite Hopen, Hq. cbn.
    destruct (bool_decide (answer = correct_answer currentQuestion)); cbn;
      rewrite Hl, Hg; split_and!; close_goal.
  - destruct (renderContent (app w)) eqn:Hview; try done.
    apply renderContent_question in Hview as (Hphase & Hq & _ & ->).
    cbn in Hoff. specialize (Hans Hoff).
    assert (Hl : loading (app w) = false).
    { unfold phase in Hphase. by destruct (loading (app w)). }
    assert (Hg : gameState (app w) = active).
    { unfold phase in Hphase. rewrite Hl in Hphase.
      by destruct (gameState (app w)); [destruct (error (app w))|..]. }
    injection Hstep as <-. unfold consistent, handleNextQuestion. cbn.
    destruct (Z.ltb_spec (currentQuestionIndex (app w))
                (js_length (questions (app w)) - 1)); cbn; rewrite Hl.
    + split_and!; close_goal.
    + rewrite Hoff. split_and!; close_goal.
  - destruct (inflight w) as [|pending] eqn:Hfl; [done|].
    assert (Hl : loading (app w) = true).
    { by destruct (loading (app w)). }
    destruct (Hld Hl) as (Hi & Ha & Hg).
    pose proof (fetchQuestions_settle_frame r (app w) (drawn w))
      as (Hl' & _ & Hi' & _ & Ha' & Hcase).
    destruct (fetchQuestions_settle r (app w) (drawn w)) as [s' n'].
    injection Hstep as <-. cbn in *. unfold consistent.
    rewrite Hl', Hi', Ha', Hi, Ha.
    assert (Hg' : gameState s' ≠ finished).
    { destruct (succeeds r); [destruct Hcase as [-> _]|destruct Hcase as (_ & -> & _)];
        by rewrite ?Hg. }
    split_and!; close_goal.
Qed.

Lemma reachableByUser_score_le (w : World) :
  reachableByUser w →
  0 ≤ score (app w) ≤ js_length (questions (app w)).
Proof.
  intros Hw. destruct (reachableByUser_consistent w Hw) as (Hpos & Hin & Hans & _).
  pose proof (reachable_score_bounds w (reachableByUser_reachable w Hw))
    as [Hlo Hhi].
  split; [done|]. destruct (isAnswered (app w)).
  - specialize (Hans eq_refl). lia.
  - unfold js_length in *. lia.
Qed.

(** X6. Driven through its buttons, the application never has more than one
    request in flight, and has one exactly while it is loading; during that
    time the spinner is all there is on screen and every click is without
    effect, so a second start cannot overlap the first. *)
Theorem single_request (w : World) :
  reachableByUser w →
  (inflight w ≤ 1)%nat
  ∧ (inflight w = 1%nat ↔ loading (app w) = true)
  ∧ (loading (app w) = true →
     renderContent (app w) = Spinner
     ∧ ∀ e, (∀ r, e ≠ Settled r) → dispatch e w = Some w).
Proof.
  intros Hw. pose proof (reachableByUser_inflight w Hw) as Hflight.
  split_and!.
  - destruct (loading (app w)); lia.
  - destruct (loading (app w)); split; (done || lia).
  - intros Hl. split; [unfold renderContent; by rewrite Hl|].
    intros e He. unfold dispatch.
    destruct (offered e (renderContent (app w))) eqn:Hoff; [|done].
    apply offered_not_loading in Hoff; [congruence|done].
Qed.

(** X7. Driven through its buttons, the application can always draw its
    screen: [renderContent] never reads a question that does not exist; on
    the question screen the heading "Question i of n" has [1 ≤ i ≤ n], the
    question shown is the i-th of [questions], and [getAnswerButtonClass]
    yields a class for every button. *)
Theorem render_never_fails (w : World) :
  reachableByUser w →
  renderContent (app w) ≠ RenderError
  ∧ ∀ q number total disabled nextButton,
      renderContent (app w) = QuestionScreen q number total disabled nextButton →
      1 ≤ number ≤ total
      ∧ questions (app w) !! Z.to_nat (number - 1) = Some q
      ∧ ∀ answer, is_Some (getAnswerButtonClass answer (app w)).
Proof.
  intros Hw. destruct (reachableByUser_consistent w Hw) as (Hpos & Hin & _).
  split.
  - unfold renderContent. destruct (loading (app w)); [done|].
    repeat (case_bool_decide; [done|]). cbn.
    destruct (bool_decide (gameState (app w) = active)); [|done]. cbn.
    destruct (Z.ltb_spec 0 (js_length (questions (app w)))); [|done].
    assert (Hsome : is_Some (js_index (questions (app w))
                               (currentQuestionIndex (app w)))).
    { apply js_index_Some. lia. }
    destruct Hsome as [q ->]. done.
  - intros q number total disabled nextButton Hview.
    pose proof Hview as Hview'.
    apply renderContent_question in Hview' as (_ & Hq & _).
    assert (Hrange : 0 ≤ currentQuestionIndex (app w)
                     < js_length (questions (app w))).
    { apply js_index_Some. by rewrite Hq. }
    unfold renderContent in Hview. destruct (loading (app w)); [done|].
    repeat (case_bool_decide; [done|]).
    destruct (_ && _); [|done]. rewrite Hq in Hview.
    injection Hview as <- <- _ _. split; [lia|]. split.
    + unfold js_index in Hq.
      destruct (Z.ltb_spec (currentQuestionIndex (app w)) 0); [lia|].
      by replace (currentQuestionIndex (app w) + 1 - 1)
        with (currentQuestionIndex (app w)) by lia.
    + intros answer. unfold getAnswerButtonClass. rewrite Hq.
      destruct (isAnswered (app w)); cbn; [|by eexists].
      destruct (bool_decide (answer = correct_answer q)); cbn; [by eexists|].
      destruct (bool_decide (Some answer = selectedAnswer (app w))); by eexists.
Qed.

(** X8. Driven through its buttons, the application never shows a score
    above the number of questions: [0 ≤ score ≤ questions.length]. *)
Theorem score_at_most_total (w : World) :
  reachableByUser w →
  0 ≤ score (app w) ≤ js_length (questions (app w)).
Proof.
  intros Hw.
  destruct (reachableByUser_consistent w Hw) as (Hpos & Hin & Hans & _).
  pose proof (reachable_score_bounds w (reachableByUser_reachable w Hw))
    as [Hlo Hhi].
  split; [done|]. destruct (isAnswered (app w)).
  - specialize (Hans eq_refl). lia.
  - unfold js_length in *. lia.
Qed.

(** X9. Driven through its buttons, the application shows the result screen
    only after the last question has been answered: there is then at least
    one question, the index is that of the last one, and the screen shows a
    score between 0 and the total, so the total it divides by is not 0. *)
Theorem result_screen_after_last (w : World) :
  reachableByUser w →
  gameState (app w) = finished →
  renderContent (app w)
  = ResultScreen (score (app w)) (js_length (questions (app w)))
  ∧ 1 ≤ js_length (questions (app w))
  ∧ 0 ≤ score (app w) ≤ js_length (questions (app w))
  ∧ currentQuestionIndex (app w) = js_length (questions (app w)) - 1
  ∧ isAnswered (app w) = true.
Proof.
  intros Hw Hfin.
  destruct (reachableByUser_consistent w Hw) as (Hpos & Hin & Hans & Hld & Hlast).
  destruct (Hlast Hfin) as [Ha Hi].
  assert (Hl : loading (app w) = false).
  { destruct (loading (app w)); [|done].
    destruct (Hld eq_refl) as (_ & _ & Hg). congruence. }
  split_and!; try done.
  - unfold renderContent. rewrite Hl, Hfin. done.
  - lia.
  - by apply reachableByUser_score_le.
  - by apply reachableByUser_score_le.
Qed.

(** X10. A click on an answer button that is on screen never fails: the
    button shows an answer of the current question, the handler returns,
    and the world after the click has that answer selected, the question
    answered, and the score raised by 1 exactly when the answer is the
    correct one. *)
Theorem offered_answer_click (answer : string) (w : World) :
  offered (AnswerSelect answer) (renderContent (app w)) = true →
  ∃ q s',
    js_index (questions (app w)) (currentQuestionIndex (app w)) = Some q
    ∧ answer ∈ answers q
    ∧ handleAnswerSelect answer (app w) = Returned s'
    ∧ dispatch (AnswerSelect answer) w
      = Some {| app := s'; inflight := inflight w; drawn := drawn w |}
    ∧ selectedAnswer s' = Some answer ∧ isAnswered s' = true
    ∧ score s' = score (app w)
                 + (if bool_decide (answer = correct_answer q) then 1 else 0).
Proof.
  intros Hoff. pose proof (dispatch_offered _ w Hoff) as Hdispatch.
  destruct (renderContent (app w)) eqn:Hview; try done.
  apply renderContent_question in Hview as (_ & Hq & -> & _).
  cbn in Hoff. apply andb_true_iff in Hoff as [Hopen Hin].
  apply negb_true_iff in Hopen. apply bool_decide_eq_true in Hin.
  exists currentQuestion.
  assert (Hcall : ∃ s', handleAnswerSelect answer (app w) = Returned s'
            ∧ selectedAnswer s' = Some answer ∧ isAnswered s' = true
            ∧ score s' = score (app w)
                + (if bool_decide (answer = correct_answer currentQuestion)
                   then 1 else 0)).
  { unfold handleAnswerSelect. rewrite Hopen, Hq.
    destruct (bool_decide (answer = correct_answer currentQuestion));
      eexists; (split; [done|]); cbn; split_and!; try done; lia. }
  destruct Hcall as (s' & Hret & Hsel & Hans & Hscore).
  exists s'. split_and!; try done.
  rewrite Hdispatch. cbn. by rewrite Hret.
Qed.

(** X11. The colours of the answer buttons.  Before an answer is chosen
    every button has the indigo class.  After [chosen] has been selected
    for an existing question, a button is green exactly when it shows the
    correct answer, red exactly when it shows the chosen answer and that
    answer is wrong, and grey otherwise; so the score went up exactly when
    the chosen button is green, and when the answers on screen are distinct
    and include the correct one, exactly one button is green. *)
Theorem getAnswerButtonClass_after_select (chosen : string) (s : State)
    (q : Question) :
  isAnswered s = false →
  js_index (questions s) (currentQuestionIndex s) = Some q →
  let s' := stateAfter (handleAnswerSelect chosen s) in
  (∀ answer,
     getAnswerButtonClass answer s = Some "bg-indigo-500 hover:bg-indigo-600")
  ∧ (∀ answer,
       getAnswerButtonClass answer s'
       = Some (if bool_decide (answer = correct_answer q)
               then "bg-green-500 scale-105"
               else if bool_decide (answer = chosen)
                    then "bg-red-500" else "bg-gray-500 opacity-70"))
  ∧ (score s' = score s + 1
     ↔ getAnswerButtonClass chosen s' = Some "bg-green-500 scale-105")
  ∧ (NoDup (answers q) → correct_answer q ∈ answers q →
     length (filter (λ answer, getAnswerButtonClass answer s'
                               = Some "bg-green-500 scale-105")
               (answers q)) = 1%nat).
Proof.
  intros Hopen Hq s'.
  assert (Hs' : isAnswered s' = true ∧ selectedAnswer s' = Some chosen
                ∧ questions s' = questions s
                ∧ currentQuestionIndex s' = currentQuestionIndex s
                ∧ score s' = score s
                    + (if bool_decide (chosen = correct_answer q)
                       then 1 else 0)).
  { subst s'. unfold handleAnswerSelect. rewrite Hopen, Hq.
    destruct (bool_decide (chosen = correct_answer q)); cbn;
      split_and!; try done; lia. }
  destruct Hs' as (Ha & Hsel & Hqs & Hi & Hscore).
  assert (Hclass : ∀ answer,
            getAnswerButtonClass answer s'
            = Some (if bool_decide (answer = correct_answer q)
                    then "bg-green-500 scale-105"
                    else if bool_decide (answer = chosen)
                         then "bg-red-500" else "bg-gray-500 opacity-70")).
  { intros answer. unfold getAnswerButtonClass.
    rewrite Ha, Hqs, Hi, Hq, Hsel. cbn.
    destruct (bool_decide (answer = correct_answer q)); [done|]. cbn.
    destruct (decide (answer = chosen)) as [->|Hne].
    - by rewrite !bool_decide_true.
    - rewrite !bool_decide_false; [done|done|congruence]. }
  split_and!.
  - intros answer. unfold getAnswerButtonClass. by rewrite Hopen.
  - done.
  - rewrite Hclass, Hscore.
    destruct (bool_decide (chosen = correct_answer q)).
    + split; [done|lia].
    + rewrite bool_decide_true by done. split; [lia|done].
  - intros Hdistinct Hin.
    rewrite <- (count_one_of_NoDup (correct_answer q) (answers q)) by done.
    f_equal. apply list_filter_iff. intros answer. rewrite Hclass.
    destruct (decide (answer = correct_answer q)) as [Hc|Hc].
    + rewrite bool_decide_true by done. by split.
    + rewrite bool_decide_false by done. split; [|done].
      by destruct (bool_decide (answer = chosen)).
Qed.

(** X12. On the question screen the text of the last button tells what the
    click does: it reads "Finish Quiz" exactly when [handleNextQuestion]
    ends the round, and "Next Question" exactly when it moves to the next
    index. *)
Theorem nextButtonLabel_agrees (s : State) :
  gameState s = active →
  (nextButtonLabel s = "Finish Quiz"
   ↔ gameState (handleNextQuestion s) = finished)
  ∧ (nextButtonLabel s = "Next Question"
     ↔ currentQuestionIndex (handleNextQuestion s)
       = currentQuestionIndex s + 1).
Proof.
  intros Hactive. unfold nextButtonLabel, handleNextQuestion.
  destruct (currentQuestionIndex s <? js_length (questions s) - 1); cbn;
    rewrite ?Hactive; (split; split; intros H); done || lia.
Qed.

(** X13. An array of at most one element comes back from [shuffleArray] as
    it is, and no random number is drawn for it. *)
Theorem shuffleArray_short {A} (array : list A) (n : nat) :
  (length array ≤ 1)%nat → shuffleArray array n = (array, n).
Proof.
  destruct array as [|x [|y array]]; [done|done|]. cbn. lia.
Qed.

(** X14. When a request succeeds with an empty [results], the application
    shows nothing, and no click and no settled request changes it any
    more: of the branches of [renderContent] only the last is left. *)
Theorem empty_results_blank (w : World) (status : Z) :
  reachableByUser w →
  offered StartQuiz (renderContent (app w)) = true →
  200 ≤ status ≤ 299 →
  ∃ w1 w',
    dispatch StartQuiz w = Some w1
    ∧ dispatch (Settled (Response status (BodyData 0 []))) w1 = Some w'
    ∧ reachableByUser w'
    ∧ phase (app w') = Active ∧ questions (app w') = []
    ∧ renderContent (app w') = Null
    ∧ ∀ e w'', dispatch e w' = Some w'' → w'' = w'.
Proof.
  intros Hw Hoff Hstatus.
  pose proof (reachableByUser_inflight w Hw) as Hflight.
  rewrite (offered_not_loading StartQuiz (app w)) in Hflight by done.
  set (w1 := {| app := handleStartQuiz (app w);
                inflight := S (inflight w); drawn := drawn w |}).
  assert (Hstart : dispatch StartQuiz w = Some w1).
  { by rewrite dispatch_offered. }
  destruct (tryBlock_formats_each status [] (drawn w) Hstatus)
    as (qs & Htry & Hlen & _).
  destruct qs; [|done].
  pose proof (fetchQuestions_settle_formatted
                (Response status (BodyData 0 []))
                (handleStartQuiz (app w)) (drawn w) [] Htry) as Hsettled.
  destruct (fetchQuestions_settle (Response status (BodyData 0 []))
              (handleStartQuiz (app w)) (drawn w)) as [s' n'] eqn:Hcall.
  cbn in Hsettled. subst s'.
  set (w' := {| app := setLoading false
                         (setQuestions [] (handleStartQuiz (app w)));
                inflight := inflight w; drawn := n' |}).
  assert (Hsettle : dispatch (Settled (Response status (BodyData 0 []))) w1
                    = Some w').
  { rewrite dispatch_offered by (by destruct (renderContent (app w1))).
    cbn [step w1 inflight app drawn]. by rewrite Hcall. }
  exists w1, w'. split_and!; try done.
  - eapply reachableByUser_step; [|exact Hsettle].
    by eapply reachableByUser_step.
  - intros e w'' Hstep. unfold dispatch in Hstep.
    destruct e as [|answer| |r]; cbn in Hstep; try by injection Hstep as <-.
    by rewrite Hflight in Hstep.
Qed.

Lemma drive_reachableByUser (es : list Event) (w w' : World) :
  reachableByUser w → drive es w = Some w' → reachableByUser w'.
Proof.
  revert w. induction es as [|e es IH]; intros w Hw Hrun; cbn in Hrun.
  - by injection Hrun as <-.
  - destruct (dispatch e w) as [w1|] eqn:Hstep; [|done].
    eapply IH; [|done]. by eapply reachableByUser_step.
Qed.

Lemma correctAnswers_bounds (qs : list Question) (chosen : list string) :
  0 ≤ correctAnswers qs chosen ≤ Z.of_nat (length chosen).
Proof.
  revert chosen. induction qs as [|q qs IH]; intros [|answer chosen]; cbn;
    try lia.
  specialize (IH chosen).
  destruct (bool_decide (answer = correct_answer q)); lia.
Qed.

(** X15. A request that fails while the spinner is shown brings the user
    back to the start screen with the message of the failure and score 0.
    There nothing but a new start has any effect, and that start clears the
    message, shows the spinner again and sends exactly one new request. *)
Theorem failed_request_recoverable (r : FetchResult) (w w' : World) :
  reachableByUser w →
  succeeds r = false →
  dispatch (Settled r) w = Some w' →
  ∃ message,
    renderContent (app w') = StartScreen (Some message)
    ∧ score (app w') = 0
    ∧ inflight w' = 0%nat
    ∧ (∀ e w'', e ≠ StartQuiz → dispatch e w' = Some w'' → w'' = w')
    ∧ ∃ w'', dispatch StartQuiz w' = Some w''
        ∧ renderContent (app w'') = Spinner
        ∧ error (app w'') = None
        ∧ inflight w'' = 1%nat.
Proof.
  intros Hw Hfail Hstep.
  pose proof (reachableByUser_inflight w Hw) as Hflight.
  destruct (reachableByUser_consistent w Hw) as (_ & _ & _ & Hld & _).
  pose proof (reachable_score_bounds w (reachableByUser_reachable w Hw))
    as Hscore.
  rewrite dispatch_offered in Hstep by (by destruct (renderContent (app w))).
  cbn in Hstep. destruct (inflight w) as [|pending] eqn:Hfl; [done|].
  assert (Hl : loading (app w) = true) by (by destruct (loading (app w))).
  rewrite Hl in Hflight. injection Hflight as ->.
  destruct (Hld Hl) as (Hi & Ha & Hg). rewrite Hi, Ha in Hscore.
  pose proof (fetchQuestions_settle_frame r (app w) (drawn w))
    as (Hl' & Hsc' & _ & _ & _ & Hcase).
  rewrite Hfail in Hcase. destruct Hcase as (_ & Hg' & [message Herr]).
  destruct (fetchQuestions_settle r (app w) (drawn w)) as [s' n'].
  injection Hstep as <-. cbn in *.
  assert (Hview : renderContent s' = StartScreen (Some message)).
  { unfold renderContent. by rewrite Hl', Hg', Herr. }
  exists message. split_and!; try done.
  - lia.
  - intros e w'' He Hdispatch. unfold dispatch in Hdispatch.
    cbn [app] in Hdispatch. rewrite Hview in Hdispatch.
    destruct e as [|answer| |r']; cbn in Hdispatch; try done;
      by injection Hdispatch as <-.
  - eexists. split.
    + rewrite dispatch_offered; [done|]. cbn [app]. by rewrite Hview.
    + done.
Qed.

(** X16. A user who, with a question on screen, clicks one of the answers
    shown for each remaining question and the button below it each time,
    ends on the result screen; the score shown is the score at the outset
    plus the number of clicked answers that were the correct ones, and the
    total shown is the number of questions. *)
Theorem drive_answerAll (chosen : list string) (w : World) :
  loading (app w) = false →
  gameState (app w) = active →
  isAnswered (app w) = false →
  0 ≤ currentQuestionIndex (app w) →
  chosen ≠ [] →
  Forall2 (λ answer q, answer ∈ answers q) chosen
    (drop (Z.to_nat (currentQuestionIndex (app w))) (questions (app w))) →
  ∃ w', drive (answerAll chosen) w = Some w'
    ∧ renderContent (app w')
      = ResultScreen
          (score (app w)
           + correctAnswers
               (drop (Z.to_nat (currentQuestionIndex (app w)))
                  (questions (app w)))
               chosen)
          (js_length (questions (app w)))
    ∧ score (app w) ≤ score (app w')
      ≤ score (app w) + Z.of_nat (length chosen).
Proof.
  intros Hl Hactive Hopen Hidx Hsome Hchosen.
  destruct (answerAll_round chosen w Hactive Hopen Hidx Hsome)
    as (w' & _ & Hfin & Hscore & _ & Hqs & Hl' & _ & _ & Hdrive).
  { by eapply Forall2_length. }
  exists w'. split; [by apply Hdrive|].
  pose proof (correctAnswers_bounds
                (drop (Z.to_nat (currentQuestionIndex (app w)))
                   (questions (app w))) chosen) as Hbounds.
  split; [|lia].
  unfold renderContent. by rewrite Hl', Hl, Hfin, Hscore, Hqs.
Qed.

End Properties.

(** * The properties on the sample round *)

Local Abbreviation step' := (step sampleRandom sampleDecodeHtml).
Local Abbreviation run' := (run sampleRandom sampleDecodeHtml).
Local Abbreviation dispatch' := (dispatch sampleRandom sampleDecodeHtml).
Local Abbreviation reachable' := (reachable sampleRandom sampleDecodeHtml).

Lemma askingWorld_reachable : reachable' askingWorld.
Proof.
  apply (run_reachable _ _ loaded initialWorld); [constructor|reflexivity].
Defined.

Lemma finishedWorld_reachable : reachable' finishedWorld.
Proof.
  apply (run_reachable _ _ (played ++ [NextQuestion]) initialWorld);
    [constructor|reflexivity].
Defined.

Lemma restartedWorld_reachable : reachable' restartedWorld.
Proof.
  apply (run_reachable _ _ (played ++ [NextQuestion; StartQuiz]) initialWorld);
    [constructor|reflexivity].
Defined.

(** C1 fails as written: the round has been played, Play Again is clicked
    and the new request comes back with status 500.  The two questions of
    the round before are still in [questions], both right after the start
    and in the Failed state. *)
Lemma restart_keeps_questions :
  phase (app finishedWorld) = Finished
  ∧ length (questions (handleStartQuiz (app finishedWorld))) = 2%nat
  ∧ ∃ w, run' [StartQuiz; Settled (Response 500 (BodyThrows ""))] finishedWorld
         = Some w
       ∧ phase (app w) = Failed ∧ score (app w) = 0
       ∧ length (questions (app w)) = 2%nat
       ∧ questions (app w) ≠ [].
Proof.
  split; [reflexivity|]. split; [reflexivity|].
  eexists. split; [reflexivity|]. by split_and!.
Qed.

(** Play Again after the sample round, answered by status 500. *)
Lemma handleStartQuiz_resets_witness :
  (tryBlock sampleRandom sampleDecodeHtml (Response 500 (BodyThrows "")) 8%nat).1
  = inl transportMessage
  ∧ score (handleStartQuiz (app finishedWorld)) = 0
  ∧ questions (handleStartQuiz (app finishedWorld))
    = questions (app finishedWorld)
  ∧ phase (fetchQuestions_settle sampleRandom sampleDecodeHtml
             (Response 500 (BodyThrows ""))
             (handleStartQuiz (app finishedWorld)) 8%nat).1 = Failed.
Proof.
  destruct (handleStartQuiz_resets sampleRandom sampleDecodeHtml
              (app finishedWorld)) as (_ & Hscore & _ & _ & _ & _ & Hqs & Hfail).
  split; [reflexivity|]. split; [exact Hscore|]. split; [exact Hqs|].
  exact (proj1 (Hfail (Response 500 (BodyThrows "")) 8%nat transportMessage
                  eq_refl)).
Defined.

(** C2 fails as written: with the first question on screen and no answer
    chosen, [handleNextQuestion] moves on to the second question; and in the
    initial state, which is not Active, it sets the phase to Finished. *)
Lemma handleNextQuestion_unguarded :
  reachable' askingWorld
  ∧ isAnswered (app askingWorld) = false
  ∧ currentQuestionIndex (app askingWorld) = 0
  ∧ currentQuestionIndex (handleNextQuestion (app askingWorld)) = 1
  ∧ handleNextQuestion (app askingWorld) ≠ app askingWorld
  ∧ phase initialState = NotStarted
  ∧ phase (handleNextQuestion initialState) = Finished.
Proof.
  split; [exact askingWorld_reachable|]. by split_and!.
Qed.

(** The first question on screen, no answer chosen: there is no button to
    advance with. *)
Lemma dispatch_NextQuestion_guarded_witness :
  (phase (app askingWorld) ≠ Active ∨ isAnswered (app askingWorld) = false)
  ∧ dispatch' NextQuestion askingWorld = Some askingWorld.
Proof.
  split; [right; reflexivity|].
  exact (proj2 (dispatch_NextQuestion_guarded sampleRandom sampleDecodeHtml
                  askingWorld (or_intror eq_refl))).
Defined.

(** C3 fails as written: while the spinner of the second round is shown the
    phase is Loading and no answer is chosen; [handleAnswerSelect] run there
    reads the first question of the round before, stores the answer and
    counts it. *)
Lemma handleAnswerSelect_ignores_phase :
  reachable' restartedWorld
  ∧ phase (app restartedWorld) = Loading
  ∧ isAnswered (app restartedWorld) = false
  ∧ score (app restartedWorld) = 0
  ∧ ∃ s', handleAnswerSelect "Paris" (app restartedWorld) = Returned s'
       ∧ selectedAnswer s' = Some "Paris" ∧ isAnswered s' = true
       ∧ score s' = 1.
Proof.
  split; [exact restartedWorld_reachable|].
  split_and!; try reflexivity. eexists. split; [reflexivity|]. by split_and!.
Qed.

(** A second answer to the first question is ignored. *)
Lemma handleAnswerSelect_guarded_witness :
  isAnswered (app answeredWorld) = true
  ∧ handleAnswerSelect "Rome" (app answeredWorld)
    = Returned (app answeredWorld)
  ∧ dispatch' (AnswerSelect "Rome") answeredWorld = Some answeredWorld.
Proof.
  destruct (handleAnswerSelect_guarded sampleRandom sampleDecodeHtml
              "Rome" "Paris" answeredWorld) as (Hsame & _ & Hview).
  split; [reflexivity|]. split; [exact (Hsame eq_refl)|].
  exact (proj2 (Hview (or_introl eq_refl))).
Defined.

(** Answering the first question of the sample round with Paris. *)
Lemma handleAnswerSelect_active_witness :
  phase (app askingWorld) = Active
  ∧ isAnswered (app askingWorld) = false
  ∧ selectedAnswer (stateAfter (handleAnswerSelect "Paris" (app askingWorld)))
    = Some "Paris"
  ∧ isAnswered (stateAfter (handleAnswerSelect "Paris" (app askingWorld)))
    = true
  ∧ handleAnswerSelect "Paris" (app askingWorld) = Returned (app answeredWorld).
Proof.
  split; [reflexivity|]. split; [reflexivity|].
  destruct (handleAnswerSelect_active "Paris" (app askingWorld)
              eq_refl eq_refl)
    as (Hsel & Hans & _ & _ & _ & _ & _ & _ & _ & Hret).
  split; [exact Hsel|]. split; [exact Hans|].
  exact (Hret (ex_intro _ _ eq_refl)).
Defined.

(** C5 fails as written: after two starts in a row the answer to the first
    request gives a round of one question, which is answered and finished
    with score 1.  The answer to the second request then arrives with two
    questions; without any new start, an advance and an answer selection
    bring the score to 2. *)
Lemma finished_score_changed_by_stale_response :
  reachable' twiceStartedWorld
  ∧ inflight twiceStartedWorld = 1%nat
  ∧ phase (app twiceStartedWorld) = Active
  ∧ isAnswered (app twiceStartedWorld) = true
  ∧ ¬ currentQuestionIndex (app twiceStartedWorld)
      < js_length (questions (app twiceStartedWorld)) - 1
  ∧ phase (handleNextQuestion (app twiceStartedWorld)) = Finished
  ∧ score (handleNextQuestion (app twiceStartedWorld)) = 1
  ∧ (StartQuiz ∉ [NextQuestion;
                   Settled (Response 200 (BodyData 0 [capital; band]));
                   NextQuestion; AnswerSelect "Led Zeppelin"])
  ∧ ∃ w1 w',
      step' NextQuestion twiceStartedWorld = Some w1
      ∧ app w1 = handleNextQuestion (app twiceStartedWorld)
      ∧ run' [Settled (Response 200 (BodyData 0 [capital; band]));
              NextQuestion; AnswerSelect "Led Zeppelin"] w1 = Some w'
      ∧ score (app w') = 2.
Proof.
  split.
  { apply (run_reachable _ _ [StartQuiz; StartQuiz;
                              Settled (Response 200 (BodyData 0 [capital]));
                              AnswerSelect "Paris"] initialWorld);
      [constructor|reflexivity]. }
  split_and!; try reflexivity; try done.
  - intros H. repeat (apply elem_of_cons in H as [H|H]; [discriminate H|]).
    by apply elem_of_nil in H.
  - eexists _, _. split; [reflexivity|]. split; [reflexivity|].
    split; reflexivity.
Qed.

(** On the result screen, further clicks leave the score at 1. *)
Lemma handleNextQuestion_active_witness :
  phase (app lastAnsweredWorld) = Active
  ∧ isAnswered (app lastAnsweredWorld) = true
  ∧ phase (handleNextQuestion (app lastAnsweredWorld)) = Finished
  ∧ ∃ w, run' [AnswerSelect "Paris"; NextQuestion; AnswerSelect "Queen"]
           finishedWorld = Some w
       ∧ score (app w) = 1.
Proof.
  destruct (handleNextQuestion_active sampleRandom sampleDecodeHtml
              (app lastAnsweredWorld) eq_refl eq_refl) as (_ & Hlast & _).
  destruct Hlast as (Hfin & _ & _ & _ & _ & _ & Hfrozen); [by vm_compute|].
  split; [reflexivity|]. split; [reflexivity|]. split; [exact Hfin|].
  exists finishedWorld. split; [reflexivity|].
  refine (proj1 (Hfrozen [AnswerSelect "Paris"; NextQuestion; AnswerSelect "Queen"]
                   finishedWorld finishedWorld eq_refl eq_refl _ eq_refl)).
  intros H. repeat (apply elem_of_cons in H as [H|H]; [discriminate H|]).
  by apply elem_of_nil in H.
Defined.

(** The bounds at the end of the sample round. *)
Lemma score_invariant_witness :
  reachable' finishedWorld
  ∧ 0 ≤ score (app finishedWorld)
  ∧ score (app finishedWorld) ≤ currentQuestionIndex (app finishedWorld) + 1.
Proof.
  split; [exact finishedWorld_reachable|].
  destruct (score_invariant sampleRandom sampleDecodeHtml finishedWorld
              finishedWorld_reachable) as (Hlo & Hhi & _).
  split; [exact Hlo|exact Hhi].
Defined.

(** The second sample question, whose answers carry entities. *)
Lemma formatQuestion_answers_witness :
  NoDup (map sampleDecodeHtml (Raw.incorrect_answers band
                                 ++ [Raw.correct_answer band]))
  ∧ length (answers (formatQuestion sampleRandom sampleDecodeHtml band 0%nat).1)
    = 4%nat.
Proof.
  assert (Hdistinct : NoDup (map sampleDecodeHtml
                               (Raw.incorrect_answers band
                                  ++ [Raw.correct_answer band]))).
  { vm_compute.
    repeat (apply NoDup_cons_2;
            [intros H;
             repeat (apply elem_of_cons in H as [H|H]; [discriminate H|]);
             by apply elem_of_nil in H|]).
    apply NoDup_nil_2. }
  split; [exact Hdistinct|].
  exact (proj1 (formatQuestion_answers sampleRandom sampleDecodeHtml band 0%nat
                  Hdistinct)).
Defined.

(** Shuffling the array at address 5 of a store that holds only it. *)
Lemma shuffleArray_fresh_permutation_witness :
  ({[ 5%nat := ["a"; "b"; "c"; "d"] ]} : gmap nat (list string)) !! 5%nat
  = Some ["a"; "b"; "c"; "d"]
  ∧ ∃ copy σ' shuffled n',
      shuffleArray_store sampleRandom 5%nat
        ({[ 5%nat := ["a"; "b"; "c"; "d"] ]} : gmap nat (list string)) 0%nat
      = (Some (copy, σ'), n')
      ∧ σ' !! copy = Some shuffled
      ∧ shuffled ≡ₚ ["a"; "b"; "c"; "d"]
      ∧ σ' !! 5%nat = Some ["a"; "b"; "c"; "d"].
Proof.
  assert (Hheld : ({[ 5%nat := ["a"; "b"; "c"; "d"] ]}
                   : gmap nat (list string)) !! 5%nat
                  = Some ["a"; "b"; "c"; "d"]) by (vm_compute; reflexivity).
  split; [exact Hheld|].
  destruct (shuffleArray_fresh_permutation sampleRandom 5%nat
              ({[ 5%nat := ["a"; "b"; "c"; "d"] ]} : gmap nat (list string))
              ["a"; "b"; "c"; "d"] 0%nat Hheld)
    as (copy & σ' & shuffled & n' & Hcall & _ & _ & Hcopy & Hperm & _ & Hold & _).
  exists copy, σ', shuffled, n'. by split_and!.
Defined.



(** An answer selected in the initial state. *)
Lemma handleAnswerSelect_reads_unguarded_witness :
  isAnswered initialState = false
  ∧ ¬ 0 ≤ currentQuestionIndex initialState < js_length (questions initialState)
  ∧ ∃ s', handleAnswerSelect "Paris" initialState = TypeError s'.
Proof.
  assert (Hout : ¬ 0 ≤ currentQuestionIndex initialState
                   < js_length (questions initialState)).
  { unfold js_length. cbn. lia. }
  split; [reflexivity|]. split; [exact Hout|].
  exact (proj2 (proj2 (proj1 (handleAnswerSelect_reads_unguarded
                                sampleRandom sampleDecodeHtml)
                         "Paris" initialState eq_refl)) Hout).
Defined.

(** * The further properties on the sample round *)

Local Abbreviation reachableByUser' :=
  (reachableByUser sampleRandom sampleDecodeHtml).
Local Abbreviation drive' := (drive sampleRandom sampleDecodeHtml).

Lemma loadingWorld_reachableByUser : reachableByUser' loadingWorld.
Proof.
  apply (drive_reachableByUser _ _ [StartQuiz] initialWorld);
    [constructor|reflexivity].
Defined.

Lemma askingWorld_reachableByUser : reachableByUser' askingWorld.
Proof.
  apply (drive_reachableByUser _ _ loaded initialWorld);
    [constructor|reflexivity].
Defined.

Lemma finishedWorld_reachableByUser : reachableByUser' finishedWorld.
Proof.
  apply (drive_reachableByUser _ _ (played ++ [NextQuestion]) initialWorld);
    [constructor|reflexivity].
Defined.

(** The two sample questions, fetched with status 200. *)
Lemma tryBlock_formats_each_witness :
  200 ≤ 200 ≤ 299
  ∧ ∃ formattedQuestions,
      (tryBlock sampleRandom sampleDecodeHtml
         (Response 200 (BodyData 0 [capital; band])) 0%nat).1
      = inr formattedQuestions
      ∧ length formattedQuestions = 2%nat.
Proof.
  assert (Hstatus : 200 ≤ 200 ≤ 299) by lia.
  split; [exact Hstatus|].
  destruct (tryBlock_formats_each sampleRandom sampleDecodeHtml 200
              [capital; band] 0%nat Hstatus) as (qs & Htry & Hlen & _).
  exists qs. split; [exact Htry|exact Hlen].
Defined.

(** The first start of the sample round. *)
Lemma start_then_success_witness :
  200 ≤ 200 ≤ 299
  ∧ ∃ w', run' loaded initialWorld = Some w'
       ∧ phase (app w') = Active ∧ length (questions (app w')) = 2%nat.
Proof.
  assert (Hstatus : 200 ≤ 200 ≤ 299) by lia.
  split; [exact Hstatus|].
  destruct (start_then_success sampleRandom sampleDecodeHtml initialWorld 200
              [capital; band] Hstatus)
    as (w' & Hrun & Hphase & _ & _ & _ & _ & _ & _ & Hlen & _).
  exists w'. split; [exact Hrun|]. split; [exact Hphase|exact Hlen].
Defined.

(** After the sample round: Play Again, status 500, and two stray calls. *)
Lemma questions_kept_without_success_witness :
  ∃ w', run' [StartQuiz; Settled (Response 500 (BodyThrows ""));
              AnswerSelect "Paris"; NextQuestion] finishedWorld = Some w'
     ∧ questions (app w') = questions (app finishedWorld).
Proof.
  eexists. split; [reflexivity|].
  apply (questions_kept_without_success sampleRandom sampleDecodeHtml
           [StartQuiz; Settled (Response 500 (BodyThrows ""));
            AnswerSelect "Paris"; NextQuestion] finishedWorld).
  - repeat constructor.
  - reflexivity.
Defined.

(** The sample round: Paris is right, Queen is wrong. *)
Lemma answerAll_scores_witness :
  gameState (app askingWorld) = active
  ∧ isAnswered (app askingWorld) = false
  ∧ ∃ w', run' (answerAll ["Paris"; "Queen"]) askingWorld = Some w'
       ∧ gameState (app w') = finished
       ∧ score (app w') = 1.
Proof.
  split; [reflexivity|]. split; [reflexivity|].
  destruct (answerAll_scores sampleRandom sampleDecodeHtml ["Paris"; "Queen"]
              askingWorld eq_refl eq_refl)
    as (w' & Hrun & Hfin & Hscore & _); [by vm_compute|done|reflexivity|].
  exists w'. split; [exact Hrun|]. split; [exact Hfin|exact Hscore].
Defined.

(** While the first request is out. *)
Lemma single_request_witness :
  reachableByUser' loadingWorld
  ∧ (inflight loadingWorld ≤ 1)%nat
  ∧ dispatch' StartQuiz loadingWorld = Some loadingWorld.
Proof.
  split; [exact loadingWorld_reachableByUser|].
  destruct (single_request sampleRandom sampleDecodeHtml loadingWorld
              loadingWorld_reachableByUser) as (Hle & _ & Hspin).
  split; [exact Hle|].
  apply (proj2 (Hspin eq_refl) StartQuiz). intros r. discriminate.
Defined.

(** The first question of the sample round on screen. *)
Lemma render_never_fails_witness :
  reachableByUser' askingWorld
  ∧ renderContent (app askingWorld) ≠ RenderError.
Proof.
  split; [exact askingWorld_reachableByUser|].
  exact (proj1 (render_never_fails sampleRandom sampleDecodeHtml askingWorld
                  askingWorld_reachableByUser)).
Defined.

(** The end of the sample round: 1 of 2. *)
Lemma score_at_most_total_witness :
  reachableByUser' finishedWorld
  ∧ 0 ≤ score (app finishedWorld) ≤ js_length (questions (app finishedWorld)).
Proof.
  split; [exact finishedWorld_reachableByUser|].
  exact (score_at_most_total sampleRandom sampleDecodeHtml finishedWorld
           finishedWorld_reachableByUser).
Defined.

Lemma result_screen_after_last_witness :
  reachableByUser' finishedWorld
  ∧ gameState (app finishedWorld) = finished
  ∧ renderContent (app finishedWorld)
    = ResultScreen (score (app finishedWorld))
        (js_length (questions (app finishedWorld))).
Proof.
  split; [exact finishedWorld_reachableByUser|]. split; [reflexivity|].
  exact (proj1 (result_screen_after_last sampleRandom sampleDecodeHtml
                  finishedWorld finishedWorld_reachableByUser eq_refl)).
Defined.

(** A click on Paris with the first question on screen. *)
Lemma offered_answer_click_witness :
  offered (AnswerSelect "Paris") (renderContent (app askingWorld)) = true
  ∧ dispatch' (AnswerSelect "Paris") askingWorld = Some answeredWorld.
Proof.
  assert (Hoff : offered (AnswerSelect "Paris")
                   (renderContent (app askingWorld)) = true)
    by (vm_compute; reflexivity).
  split; [exact Hoff|].
  destruct (offered_answer_click sampleRandom sampleDecodeHtml "Paris"
              askingWorld Hoff) as (q & s' & _ & _ & Hret & Hdispatch & _).
  rewrite Hdispatch. injection Hret as <-. reflexivity.
Defined.

(** Rome chosen for the first sample question: Rome red, Paris green. *)
Lemma getAnswerButtonClass_after_select_witness :
  isAnswered (app askingWorld) = false
  ∧ getAnswerButtonClass "Rome"
      (stateAfter (handleAnswerSelect "Rome" (app askingWorld)))
    = Some "bg-red-500"
  ∧ getAnswerButtonClass "Paris"
      (stateAfter (handleAnswerSelect "Rome" (app askingWorld)))
    = Some "bg-green-500 scale-105".
Proof.
  split; [reflexivity|].
  destruct (getAnswerButtonClass_after_select "Rome" (app askingWorld)
              (mkQuestion "What is the capital of France?" "Paris"
                 ["London"; "Berlin"; "Rome"]
                 ["Berlin"; "London"; "Paris"; "Rome"]
                 [("difficulty", "easy")])
              eq_refl eq_refl) as (_ & Hclass & _).
  split; [exact (Hclass "Rome")|exact (Hclass "Paris")].
Defined.

(** Below the first of two questions the button reads Next Question. *)
Lemma nextButtonLabel_agrees_witness :
  gameState (app answeredWorld) = active
  ∧ nextButtonLabel (app answeredWorld) = "Next Question"
  ∧ currentQuestionIndex (handleNextQuestion (app answeredWorld)) = 1.
Proof.
  split; [reflexivity|]. split; [reflexivity|].
  exact (proj1 (proj2 (nextButtonLabel_agrees (app answeredWorld) eq_refl))
           eq_refl).
Defined.

(** A question with no incorrect answers has a single button. *)
Lemma shuffleArray_short_witness :
  (length ["True"] ≤ 1)%nat
  ∧ shuffleArray sampleRandom ["True"] 0%nat = (["True"], 0%nat).
Proof.
  assert (Hshort : (length ["True"] ≤ 1)%nat) by (cbn; lia).
  split; [exact Hshort|].
  exact (shuffleArray_short sampleRandom ["True"] 0%nat Hshort).
Defined.

(** The first request answered with no questions at all. *)
Lemma empty_results_blank_witness :
  offered StartQuiz (renderContent (app initialWorld)) = true
  ∧ ∃ w', drive' [StartQuiz; Settled (Response 200 (BodyData 0 []))]
            initialWorld = Some w'
       ∧ renderContent (app w') = Null.
Proof.
  split; [reflexivity|].
  destruct (empty_results_blank sampleRandom sampleDecodeHtml initialWorld 200)
    as (w1 & w' & Hstart & Hsettle & _ & _ & _ & Hview & _);
    [constructor|reflexivity|lia|].
  exists w'. split; [|exact Hview].
  cbn [drive]. rewrite Hstart. cbn [drive]. rewrite Hsettle. reflexivity.
Defined.

(** The first request answered with status 500. *)
Lemma failed_request_recoverable_witness :
  reachableByUser' loadingWorld
  ∧ ∃ w', dispatch' (Settled (Response 500 (BodyThrows ""))) loadingWorld
          = Some w'
       ∧ ∃ message, renderContent (app w') = StartScreen (Some message).
Proof.
  split; [exact loadingWorld_reachableByUser|].
  eexists. split; [reflexivity|].
  destruct (failed_request_recoverable sampleRandom sampleDecodeHtml
              (Response 500 (BodyThrows "")) loadingWorld _
              loadingWorld_reachableByUser eq_refl eq_refl)
    as (message & Hview & _).
  exists message. exact Hview.
Defined.

(** The sample round, click by click. *)
Lemma drive_answerAll_witness :
  loading (app askingWorld) = false
  ∧ gameState (app askingWorld) = active
  ∧ ∃ w', drive' (answerAll ["Paris"; "Queen"]) askingWorld = Some w'
       ∧ renderContent (app w') = ResultScreen 1 2.
Proof.
  split; [reflexivity|]. split; [reflexivity|].
  destruct (drive_answerAll sampleRandom sampleDecodeHtml ["Paris"; "Queen"]
              askingWorld eq_refl eq_refl eq_refl)
    as (w' & Hdrive & Hview & _).
  - by vm_compute.
  - done.
  - repeat (apply Forall2_cons; split);
      [apply list_elem_of_further, list_elem_of_further, list_elem_of_here
      |apply list_elem_of_further, list_elem_of_further, list_elem_of_further,
         list_elem_of_here
      |apply Forall2_nil_2].
  - exists w'. split; [exact Hdrive|exact Hview].
Defined.
